(** * sse-client-go: frame segmenter, event decoder and stream session

    A shallow embedding of [event.go] (the decoder [readEvent], the split
    function [eventScannerFunc] and the scanner wrapper [scanEvent]) and of
    [client.go] (the session goroutine started by [Stream] and its teardown
    [closeRespAndCurrStreamCh]), together with the parts of Go's [bytes] and
    [bufio] packages that this code calls.

    Conventions.
    - A Go [[]byte] is a [list byte]; a nil slice and an empty slice are both
      the empty list (they have the same length and the same contents).
    - A Go [string] built by [string(value)] carries exactly the bytes of
      [value]; it is modelled by [string_of_list_byte value].
    - A Go [int] is a [Z]; [bytes.Index] returns [-1] when nothing is found.
    - Code that can panic returns [option] ([None] is the panic). *)

From Stdlib Require Import Strings.Byte Strings.String.
From Stdlib Require Import List ZArith Lia Bool Arith.
Import ListNotations.

Local Open Scope Z_scope.

(** ** Byte strings *)

Definition bytes := list byte.

Definition LF : byte := x0a.
Definition CR : byte := x0d.
Definition NUL : byte := x00.
Definition COLON : byte := x3a.
Definition SPACE : byte := x20.
Definition BACKSLASH : byte := x5c.

(** [lit] reads a byte-string literal the way Go source text is written:
    the escapes [\n], [\r], [\0] and [\\] stand for LF, CR, NUL and a
    backslash; every other byte stands for itself. *)
Fixpoint unescape (s : bytes) : bytes :=
  match s with
  | [] => []
  | c :: s' =>
      if Byte.eqb c BACKSLASH then
        match s' with
        | x6e :: s'' => LF :: unescape s''
        | x72 :: s'' => CR :: unescape s''
        | x30 :: s'' => NUL :: unescape s''
        | x5c :: s'' => BACKSLASH :: unescape s''
        | _ => c :: unescape s'
        end
      else c :: unescape s'
  end.

Definition lit (s : string) : bytes := unescape (list_byte_of_string s).

(** ** The [bytes] package *)

Module bytes_pkg.

(** [bytes.Equal] *)
Fixpoint Equal (a b : bytes) : bool :=
  match a, b with
  | [], [] => true
  | x :: a', y :: b' => Byte.eqb x y && Equal a' b'
  | _, _ => false
  end.

(** [bytes.HasPrefix] *)
Fixpoint HasPrefix (s prefix : bytes) {struct prefix} : bool :=
  match prefix, s with
  | [], _ => true
  | p :: prefix', c :: s' => Byte.eqb c p && HasPrefix s' prefix'
  | _ :: _, [] => false
  end.

(** [bytes.HasSuffix] *)
Definition HasSuffix (s suffix : bytes) : bool :=
  HasPrefix (rev s) (rev suffix).

(** [bytes.Index]: offset of the first instance of [sep] in [s], or [-1].
    [index_from s sep i] searches the tail [s] that starts at offset [i]. *)
Fixpoint index_from (s sep : bytes) (i : Z) : Z :=
  if HasPrefix s sep then i
  else match s with
       | [] => -1
       | _ :: s' => index_from s' sep (i + 1)
       end.

Definition Index (s sep : bytes) : Z := index_from s sep 0.

(** [bytes.Contains] *)
Definition Contains (b subslice : bytes) : bool := 0 <=? Index b subslice.

(** Go slice expressions [s[:i]] and [s[i:]] for an in-range [i]. *)
Definition slice_to (s : bytes) (i : Z) : bytes := firstn (Z.to_nat i) s.
Definition slice_from (s : bytes) (i : Z) : bytes := skipn (Z.to_nat i) s.

(** [bytes.Split] with a non-empty separator ([genSplit] with [n < 0]):
    the loop cuts at the next instance of [sep] until none is left; Go
    bounds the number of pieces by [len(s) + 1], hence at most [len(s)]
    cuts. *)
Fixpoint genSplit (cuts : nat) (s sep : bytes) : list bytes :=
  match cuts with
  | O => [s]
  | S cuts' =>
      let m := Index s sep in
      if m <? 0 then [s]
      else slice_to s m :: genSplit cuts' (slice_from s (m + Z.of_nat (length sep))) sep
  end.

Definition Split (s sep : bytes) : list bytes := genSplit (length s) s sep.

(** [bytes.TrimPrefix] *)
Definition TrimPrefix (s prefix : bytes) : bytes :=
  if HasPrefix s prefix then skipn (length prefix) s else s.

(** [bytes.TrimSuffix] *)
Definition TrimSuffix (s suffix : bytes) : bytes :=
  if HasSuffix s suffix then firstn (length s - length suffix) s else s.

(** [bytes.Replace] with [n = -1] and a non-empty [old]: a fresh slice in
    which the non-overlapping instances of [old] are replaced by [new];
    the argument [s] itself is left as it is. *)
Fixpoint replace_go (cuts : nat) (s old new : bytes) : bytes :=
  match cuts with
  | O => s
  | S cuts' =>
      let j := Index s old in
      if j <? 0 then s
      else slice_to s j ++ new
           ++ replace_go cuts' (slice_from s (j + Z.of_nat (length old))) old new
  end.

Definition Replace (s old new : bytes) : bytes := replace_go (length s) s old new.

(** [bytes.FieldsFunc] for a predicate on single bytes.  Go decodes
    UTF-8 code points and asks the predicate about each; the predicate of
    [readEvent] holds of LF and CR only, and neither byte occurs inside a
    multi-byte sequence, so asking byte by byte cuts at the same places.

    [open] mirrors the loop variable [start]: [None] is [start < 0];
    [Some f] is an open span whose bytes so far are [rev f]. *)
Definition close_span (open : option bytes) : list bytes :=
  match open with
  | None => []
  | Some f => [rev f]
  end.

Fixpoint fields_loop (f : byte -> bool) (open : option bytes) (s : bytes)
  : list bytes :=
  match s with
  | [] => close_span open
  | c :: s' =>
      if f c then close_span open ++ fields_loop f None s'
      else match open with
           | None => fields_loop f (Some [c]) s'
           | Some cur => fields_loop f (Some (c :: cur)) s'
           end
  end.

Definition FieldsFunc (s : bytes) (f : byte -> bool) : list bytes :=
  fields_loop f None s.

End bytes_pkg.

(** ** Errors *)

Inductive error : Type :=
| ErrDataIsEmpty        (* errors.New("data is empty") *)
| ErrNon200             (* errors.New("non-200 status code from stream") *)
| ErrStreamIsClosed     (* sse.ErrStreamIsClosed *)
| EOF                   (* io.EOF *)
| ErrNoProgress         (* io.ErrNoProgress *)
| ErrTooLong            (* bufio.ErrTooLong *)
| ErrNegativeAdvance    (* bufio.ErrNegativeAdvance *)
| ErrAdvanceTooFar      (* bufio.ErrAdvanceTooFar *)
| ErrBadReadCount       (* bufio.ErrBadReadCount *)
| ErrFinalToken         (* bufio.ErrFinalToken *)
| ErrOther (tag : nat). (* any other error of a collaborator *)

Definition error_eqb (a b : error) : bool :=
  match a, b with
  | ErrDataIsEmpty, ErrDataIsEmpty
  | ErrNon200, ErrNon200
  | ErrStreamIsClosed, ErrStreamIsClosed
  | EOF, EOF
  | ErrNoProgress, ErrNoProgress
  | ErrTooLong, ErrTooLong
  | ErrNegativeAdvance, ErrNegativeAdvance
  | ErrAdvanceTooFar, ErrAdvanceTooFar
  | ErrBadReadCount, ErrBadReadCount
  | ErrFinalToken, ErrFinalToken => true
  | ErrOther m, ErrOther n => Nat.eqb m n
  | _, _ => false
  end.

(** ** The [io.Reader] behind a scanner *)

Module io.

(** The source is a script of what its successive [Read] calls deliver:
    the bytes that have arrived and the error reported with them.  A call
    with room for fewer bytes takes what fits and leaves the rest (and the
    error) for the next call; past the end of the script every call
    reports [io.EOF]. *)
Definition Reader := list (bytes * option error).

Definition Read (r : Reader) (room : nat) : bytes * option error * Reader :=
  match r with
  | [] => ([], Some EOF, [])
  | (c, e) :: rest =>
      if (length c <=? room)%nat then (c, e, rest)
      else (firstn room c, None, (skipn room c, e) :: rest)
  end.

(** The bytes a source holds in all. *)
Fixpoint pending (r : Reader) : bytes :=
  match r with
  | [] => []
  | (c, _) :: rest => c ++ pending rest
  end.

(** The size of a script: every [Read] that returns bytes or drops an
    entry makes it smaller. *)
Definition weight (r : Reader) : nat := length (pending r) + length r.

(** A source that delivers [chunks] one by one and then reports [io.EOF]. *)
Definition ofChunks (chunks : list bytes) : Reader :=
  map (fun c => (c, None)) chunks.

(** All the ways of cutting [s] into non-empty chunks. *)
Fixpoint cuttings (s : bytes) : list (list bytes) :=
  match s with
  | [] => [[]]
  | x :: s' =>
      flat_map (fun chunks =>
                  match chunks with
                  | [] => [[[x]]]
                  | c :: rest => [[x] :: c :: rest; (x :: c) :: rest]
                  end)
               (cuttings s')
  end.

End io.

(** ** [bufio.Scanner] *)

Module bufio.
Import io.

(** [type SplitFunc func(data []byte, atEOF bool) (advance int, token []byte, err error)];
    a nil token is [None]. *)
Definition SplitFunc : Type := bytes -> bool -> Z * option bytes * option error.

Definition MaxScanTokenSize : Z := 64 * 1024.
Definition startBufSize : Z := 4096.
Definition maxConsecutiveEmptyReads : nat := 100.
Definition maxInt : Z := 2 ^ 63 - 1.

(** The scanner.  [buf_len] is [len(s.buf)], [data] holds the bytes
    [s.buf[s.start:s.end]], so that [s.end] is [start + len data]. *)
Record Scanner : Type := mkScanner {
  r : Reader;
  split : SplitFunc;
  maxTokenSize : Z;
  token : option bytes;
  buf_len : Z;
  start : Z;
  data : bytes;
  err : option error;
  empties : nat;
  done : bool
}.

Definition len (b : bytes) : Z := Z.of_nat (length b).
Definition notNil {A : Type} (x : option A) : bool :=
  match x with Some _ => true | None => false end.
Definition end_ (s : Scanner) : Z := start s + len (data s).

(** [bufio.NewScanner] followed by [Split]. *)
Definition NewScanner (rd : Reader) (f : SplitFunc) : Scanner :=
  {| r := rd; split := f; maxTokenSize := MaxScanTokenSize; token := None;
     buf_len := 0; start := 0; data := []; err := None; empties := 0;
     done := false |}.

Definition with_err (s : Scanner) (e : option error) : Scanner :=
  {| r := r s; split := split s; maxTokenSize := maxTokenSize s;
     token := token s; buf_len := buf_len s; start := start s;
     data := data s; err := e; empties := empties s; done := done s |}.

(** [setErr]: records the first error that is not [io.EOF]. *)
Definition setErr (s : Scanner) (e : error) : Scanner :=
  match err s with
  | None => with_err s (Some e)
  | Some EOF => with_err s (Some e)
  | Some _ => s
  end.

(** [advance]: consumes [n] bytes of the buffer, or records an error. *)
Definition advance (s : Scanner) (n : Z) : bool * Scanner :=
  if n <? 0 then (false, setErr s ErrNegativeAdvance)
  else if len (data s) <? n then (false, setErr s ErrAdvanceTooFar)
  else (true,
        {| r := r s; split := split s; maxTokenSize := maxTokenSize s;
           token := token s; buf_len := buf_len s; start := start s + n;
           data := skipn (Z.to_nat n) (data s); err := err s;
           empties := empties s; done := done s |}).

(** What a call of [Scan] does. *)
Inductive scanned : Type :=
| Scanned (ok : bool) (s : Scanner)
| ScanPanic          (* too many empty tokens without progressing *)
| ScanUnfinished.    (* the loop bound of the model was reached *)

(** First half of the loop body of [Scan]: offer the buffer to the split
    function.  [inl] is a [return]; [inr] goes on to the reading half. *)
Definition offer (s : Scanner) : scanned + Scanner :=
  if (0 <? len (data s)) || notNil (err s) then
    let '(adv, tok, e) := split s (data s) (notNil (err s)) in
    match e with
    | Some ErrFinalToken =>
        inl (Scanned (notNil tok)
               {| r := r s; split := split s; maxTokenSize := maxTokenSize s;
                  token := tok; buf_len := buf_len s; start := start s;
                  data := data s; err := err s; empties := empties s;
                  done := true |})
    | Some e' => inl (Scanned false (setErr s e'))
    | None =>
        match advance s adv with
        | (false, s1) => inl (Scanned false s1)
        | (true, s1) =>
            let s2 (n : nat) :=
              {| r := r s1; split := split s1; maxTokenSize := maxTokenSize s1;
                 token := tok; buf_len := buf_len s1; start := start s1;
                 data := data s1; err := err s1; empties := n;
                 done := done s1 |} in
            match tok with
            | Some _ =>
                if negb (notNil (err s1)) || (0 <? adv)
                then inl (Scanned true (s2 O))
                else if (maxConsecutiveEmptyReads <? S (empties s1))%nat
                     then inl ScanPanic
                     else inl (Scanned true (s2 (S (empties s1))))
            | None => inr (s2 (empties s1))
            end
        end
    end
  else inr s.

(** The read loop at the end of the body of [Scan]; [tries] counts down
    from [maxConsecutiveEmptyReads + 1]. *)
Fixpoint fill (tries : nat) (s : Scanner) : Scanner :=
  let '(got, e, r') := Read (r s) (Z.to_nat (buf_len s - end_ s)) in
  let s1 (d : bytes) (n : nat) :=
    {| r := r'; split := split s; maxTokenSize := maxTokenSize s;
       token := token s; buf_len := buf_len s; start := start s;
       data := d; err := err s; empties := n; done := done s |} in
  if (buf_len s - end_ s <? len got) then setErr (s1 (data s) (empties s)) ErrBadReadCount
  else
    match e with
    | Some e' => setErr (s1 (data s ++ got) (empties s)) e'
    | None =>
        if (0 <? len got) then s1 (data s ++ got) O
        else match tries with
             | O => s1 (data s) (empties s)
             | S O => setErr (s1 (data s) (empties s)) ErrNoProgress
             | S tries' => fill tries' (s1 (data s) (empties s))
             end
    end.

(** Second half of the loop body: stop at an earlier error, else make room
    (shift, then grow) and read. *)
Definition refill (s : Scanner) : scanned + Scanner :=
  match err s with
  | Some _ =>
      inl (Scanned false
             {| r := r s; split := split s; maxTokenSize := maxTokenSize s;
                token := token s; buf_len := buf_len s; start := 0;
                data := []; err := err s; empties := empties s;
                done := done s |})
  | None =>
      let start1 :=
        if (0 <? start s)
           && ((end_ s =? buf_len s) || (buf_len s / 2 <? start s))
        then 0 else start s in
      if (start1 + len (data s) =? buf_len s) then
        if (maxTokenSize s <=? buf_len s) || (maxInt / 2 <? buf_len s)
        then inl (Scanned false (setErr s ErrTooLong))
        else
          let newSize := if (buf_len s * 2 =? 0) then startBufSize else buf_len s * 2 in
          let newSize := Z.min newSize (maxTokenSize s) in
          inr (fill (S maxConsecutiveEmptyReads)
                 {| r := r s; split := split s; maxTokenSize := maxTokenSize s;
                    token := token s; buf_len := newSize; start := 0;
                    data := data s; err := err s; empties := empties s;
                    done := done s |})
      else
        inr (fill (S maxConsecutiveEmptyReads)
               {| r := r s; split := split s; maxTokenSize := maxTokenSize s;
                  token := token s; buf_len := buf_len s; start := start1;
                  data := data s; err := err s; empties := empties s;
                  done := done s |})
  end.

(** The [for] loop of [Scan], run for at most [rounds] rounds. *)
Fixpoint scan_loop (rounds : nat) (s : Scanner) : scanned :=
  match rounds with
  | O => ScanUnfinished
  | S rounds' =>
      match offer s with
      | inl res => res
      | inr s1 =>
          match refill s1 with
          | inl res => res
          | inr s2 => scan_loop rounds' s2
          end
      end
  end.

(** Every round but the last two makes the script of the source smaller,
    so this many rounds are enough (see [Scan_finishes]). *)
Definition rounds_for (s : Scanner) : nat := weight (r s) + 2.

(** [func (s *Scanner) Scan() bool] *)
Definition Scan (s : Scanner) : scanned :=
  if done s then Scanned false s else scan_loop (rounds_for s) s.

(** [func (s *Scanner) Bytes() []byte] *)
Definition Bytes (s : Scanner) : option bytes := token s.

(** [func (s *Scanner) Err() error] *)
Definition Err (s : Scanner) : option error :=
  match err s with
  | Some EOF => None
  | e => e
  end.

End bufio.

(** ** event.go: the decoder *)

Module sse.
Import bytes_pkg.

(** [type Event struct] (the field [Type] is written [Type_]). *)
Record Event : Type := mkEvent {
  LastEventID : string;
  Type_ : string;
  Data : bytes
}.

(** [&Event{}] *)
Definition emptyEvent : Event :=
  {| LastEventID := EmptyString; Type_ := EmptyString; Data := [] |}.

Definition eventTypeEvent : bytes := lit "event".
Definition eventTypeData : bytes := lit "data".
Definition eventTypeID : bytes := lit "id".
Definition eventTypeRetry : bytes := lit "retry".

(** The predicate handed to [bytes.FieldsFunc]. *)
Definition isLineEnd (r : byte) : bool := Byte.eqb r LF || Byte.eqb r CR.

(** The branch of the loop body that finds [field] and [value].
    [splitLine[0]] and [splitLine[1]] are index expressions: out of range
    they panic ([None]). *)
Definition fieldAndValue (line : bytes) : option (bytes * bytes) :=
  if Contains line (lit ":") then
    let splitLine := Split line (lit ":") in
    match nth_error splitLine 0, nth_error splitLine 1 with
    | Some field, Some value => Some (field, TrimPrefix value (lit " "))
    | _, _ => None
    end
  else Some (line, lit "").

(** The [switch] of the loop body. *)
Definition dispatch (event : Event) (field value : bytes) : Event :=
  if Equal field eventTypeEvent then
    {| LastEventID := LastEventID event;
       Type_ := string_of_list_byte value;
       Data := Data event |}
  else if Equal field eventTypeData then
    {| LastEventID := LastEventID event;
       Type_ := Type_ event;
       Data := value ++ lit "\n" |}
  else if Equal field eventTypeID then
    if negb (Contains value (lit "\0")) then
      {| LastEventID := string_of_list_byte value;
         Type_ := Type_ event;
         Data := Data event |}
    else event
  else if Equal field eventTypeRetry then event
  else event.

(** [isField name line value]: [line] is not a comment and the loop body
    finds the field [name] with the value [value] on it. *)
Definition isField (name line value : bytes) : Prop :=
  HasPrefix line (lit ":") = false /\ fieldAndValue line = Some (name, value).

(** Bytes that are no line end and no colon, and the events whose strings
    are made of such bytes: the last event id without NUL, and the data
    buffer empty or a run of such bytes closed by one LF. *)
Definition plainByte (b : byte) : Prop := isLineEnd b = false /\ b <> COLON.

Definition plainEvent (event : Event) : Prop :=
  Forall plainByte (list_byte_of_string (LastEventID event)) /\
  ~ In NUL (list_byte_of_string (LastEventID event)) /\
  Forall plainByte (list_byte_of_string (Type_ event)) /\
  (Data event = [] \/ exists value, Data event = value ++ [LF] /\ Forall plainByte value).

(** One iteration of the loop over the lines. *)
Definition processLine (event : Event) (line : bytes) : option Event :=
  if HasPrefix line (lit ":") then Some event
  else match fieldAndValue line with
       | Some (field, value) => Some (dispatch event field value)
       | None => None
       end.

Fixpoint processLines (event : Event) (lines : list bytes) : option Event :=
  match lines with
  | [] => Some event
  | line :: rest =>
      match processLine event line with
      | Some event' => processLines event' rest
      | None => None
      end
  end.

(** What a call of [readEvent] does: it returns an event, returns an error,
    or panics. *)
Inductive decoded : Type :=
| Decoded (event : Event)
| DecodeError (err : error)
| DecodePanic.

(** [func readEvent(data []byte)], returning an event pointer and an error *)
Definition readEvent (data : bytes) : decoded :=
  if (Z.of_nat (length data) <? 1) then DecodeError ErrDataIsEmpty
  else
    (* the result of bytes.Replace is dropped; data is not changed *)
    let _ := Replace data (lit "\n\r") (lit "\n") in
    match processLines emptyEvent (FieldsFunc data isLineEnd) with
    | Some event =>
        Decoded {| LastEventID := LastEventID event;
                   Type_ := Type_ event;
                   Data := TrimSuffix (Data event) (lit "\n") |}
    | None => DecodePanic
    end.

(** The line-terminator conventions of a frame: [crlfToLF] writes LF for
    every CRLF pair (a call of [bytes.Replace]), [loneCRtoLF] writes LF
    for every CR that no LF follows. *)
Definition crlfToLF (frame : bytes) : bytes :=
  Replace frame (lit "\r\n") (lit "\n").

Fixpoint loneCRtoLF (frame : bytes) : bytes :=
  match frame with
  | [] => []
  | c :: rest =>
      (if Byte.eqb c CR && negb (HasPrefix rest [LF]) then LF else c)
        :: loneCRtoLF rest
  end.

(** *** event.go: the segmenter *)

(** [var eventScannerFunc bufio.SplitFunc] *)
Definition eventScannerFunc : bufio.SplitFunc := fun data atEOF =>
  if atEOF && (bufio.len data =? 0) then (0, None, None)
  else if atEOF then (bufio.len data, Some data, None)
  else
    let i := Index data (lit "\r\n\r\n") in
    if 0 <=? i then (i + 1, Some (slice_to data i), None)
    else
      let i := Index data (lit "\n\n") in
      if 0 <=? i then (i + 1, Some (slice_to data i), None)
      else
        let i := Index data (lit "\r\r") in
        if 0 <=? i then (i + 1, Some (slice_to data i), None)
        else (0, None, None).

(** Whether one of the three boundary patterns occurs in [data]. *)
Definition hasBoundary (data : bytes) : bool :=
  (0 <=? Index data (lit "\r\n\r\n"))
  || (0 <=? Index data (lit "\n\n"))
  || (0 <=? Index data (lit "\r\r")).

(** [type eventScanner struct { *bufio.Scanner }] and [newEventScanner] *)
Definition eventScanner : Type := bufio.Scanner.

Definition newEventScanner (body : io.Reader) : eventScanner :=
  bufio.NewScanner body eventScannerFunc.

(** What a call of [scanEvent] does: it returns a frame, returns an error,
    or does not return. *)
Inductive scannedEvent : Type :=
| Frame (eventBytes : bytes) (scanner : eventScanner)
| ScanError (err : error) (scanner : eventScanner)
| ScanEventPanic
| ScanEventUnfinished.

(** [func (scanner *eventScanner) scanEvent() ([]byte, error)] *)
Definition scanEvent (scanner : eventScanner) : scannedEvent :=
  match bufio.Scan scanner with
  | bufio.Scanned true scanner' =>
      Frame (match bufio.Bytes scanner' with Some t => t | None => [] end) scanner'
  | bufio.Scanned false scanner' =>
      match bufio.Err scanner' with
      | Some err => ScanError err scanner'
      | None => ScanError EOF scanner'
      end
  | bufio.ScanPanic => ScanEventPanic
  | bufio.ScanUnfinished => ScanEventUnfinished
  end.

(** The frames that successive calls of [scanEvent] return, up to the
    first error; [calls] bounds the number of calls. *)
Inductive frames_result : Type :=
| FramesThen (frames : list bytes) (err : error)
| FramesPanic (frames : list bytes)
| FramesUnfinished (frames : list bytes).

Definition add_frame (f : bytes) (res : frames_result) : frames_result :=
  match res with
  | FramesThen fs e => FramesThen (f :: fs) e
  | FramesPanic fs => FramesPanic (f :: fs)
  | FramesUnfinished fs => FramesUnfinished (f :: fs)
  end.

Fixpoint scanEvents (calls : nat) (scanner : eventScanner) : frames_result :=
  match calls with
  | O => FramesUnfinished []
  | S calls' =>
      match scanEvent scanner with
      | Frame f scanner' => add_frame f (scanEvents calls' scanner')
      | ScanError e _ => FramesThen [] e
      | ScanEventPanic => FramesPanic []
      | ScanEventUnfinished => FramesUnfinished []
      end
  end.



(** Every frame consumes at least one byte, so one call per byte of the
    stream and one more are enough. *)
Definition segment (body : io.Reader) : frames_result :=
  scanEvents (length (io.pending body) + 2) (newEventScanner body).

End sse.

(** ** client.go: the stream session *)

Module client.
Import sse.

(** Channels are known by their identity. *)
Definition chan : Type := nat.

(** [*http.Request] and [*http.Response], as far as the session looks at
    them. *)
Definition Request : Type := nat.

Record Response : Type := mkResponse {
  StatusCode : Z;
  Body : io.Reader
}.

(** [type Client struct]: the HTTP collaborator ([HTTPClient.Do]) and the
    map from event channels to stop channels (in a sequential model the
    mutex has nothing to exclude). *)
Record Client : Type := mkClient {
  HTTPClient : Request -> Response + error;
  currentlyStreaming : list (chan * chan)
}.

(** [func NewClient(httpclient *http.Client) *Client] *)
Definition NewClient (httpclient : Request -> Response + error) : Client :=
  {| HTTPClient := httpclient; currentlyStreaming := [] |}.

(** Map lookup, assignment and [delete]. *)
Fixpoint lookup (m : list (chan * chan)) (k : chan) : option chan :=
  match m with
  | [] => None
  | (k', v) :: m' => if Nat.eqb k' k then Some v else lookup m' k
  end.

Definition delete (m : list (chan * chan)) (k : chan) : list (chan * chan) :=
  filter (fun kv => negb (Nat.eqb (fst kv) k)) m.

Definition assign (m : list (chan * chan)) (k v : chan) : list (chan * chan) :=
  (k, v) :: delete m k.

(** What the session does to the world, in order. *)
Inductive effect : Type :=
| SendError (err : error)      (* errch <- err *)
| SendEvent (event : Event)    (* eventch <- event *)
| CloseBody                    (* resp.Body.Close() *)
| CloseStop (streamch : chan). (* close(streamch) *)

(** How the goroutine ends. *)
Inductive exit_path : Type :=
| ExitDoError        (* HTTPClient.Do failed *)
| ExitStatus         (* status code refused *)
| ExitStreamClosed   (* scanEvent returned io.EOF *)
| ExitScanError      (* scanEvent returned another error *)
| ExitStopped.       (* a stop request was received *)

Inductive ending : Type :=
| Returned (path : exit_path)
| BlockedOnStop      (* waits in the select for ever *)
| Panicked
| Unfinished.        (* the loop bound of the model was reached *)

(** A [select] statement: [ready] tells, case by case, whether the
    communication can proceed.  With no ready case the statement takes
    its [default] case, and without one it blocks. *)
Inductive selected : Type :=
| CaseTaken (i : nat)
| DefaultTaken
| Blocks.

Fixpoint first_ready (ready : list bool) (i : nat) : option nat :=
  match ready with
  | [] => None
  | true :: _ => Some i
  | false :: ready' => first_ready ready' (S i)
  end.

Definition select (ready : list bool) (has_default : bool) : selected :=
  match first_ready ready 0 with
  | Some i => CaseTaken i
  | None => if has_default then DefaultTaken else Blocks
  end.

(** [func (c *Client) closeRespAndCurrStreamCh(resp *http.Response, ch chan *Event)];
    a nil [resp] is [None]. *)
Definition closeRespAndCurrStreamCh (c : Client) (resp : option Response) (ch : chan)
  : list effect * Client :=
  let closed := match resp with
                | Some _ => [CloseBody]
                | None => []
                end in
  match lookup (currentlyStreaming c) ch with
  | Some streamch =>
      (closed ++ [CloseStop streamch],
       {| HTTPClient := HTTPClient c;
          currentlyStreaming := delete (currentlyStreaming c) ch |})
  | None => (closed, c)
  end.

(** [func (c *Client) StopStream(ch chan *Event)]: the stop channel on
    which [true] is sent, if any. *)
Definition StopStream (c : Client) (ch : chan) : option chan :=
  lookup (currentlyStreaming c) ch.

(** The [for] loop of the goroutine.  [stop k] tells whether a value can
    be received from the stop channel when the session reaches its
    [k]-th select, that is, whether [StopStream] has been or will be
    called for this session by then.  The consumer is taken to receive
    every value sent on the event and error channels. *)
Fixpoint streamLoop (rounds : nat) (stop : nat -> bool) (k : nat)
         (scanner : eventScanner) : list effect * ending :=
  match rounds with
  | O => ([], Unfinished)
  | S rounds' =>
      match scanEvent scanner with
      | ScanError err _ =>
          if error_eqb err EOF
          then ([SendError ErrStreamIsClosed], Returned ExitStreamClosed)
          else ([SendError err], Returned ExitScanError)
      | ScanEventPanic => ([], Panicked)
      | ScanEventUnfinished => ([], Unfinished)
      | Frame eventBytes scanner' =>
          match readEvent eventBytes with
          | DecodePanic => ([], Panicked)
          | decoded_ =>
              let sent := match decoded_ with
                          | Decoded event => [SendEvent event]
                          | _ => []
                          end in
              (* select { case <-c.currentlyStreaming[eventch]: return } *)
              match select [stop k] false with
              | CaseTaken _ => (sent, Returned ExitStopped)
              | Blocks => (sent, BlockedOnStop)
              | DefaultTaken =>
                  let '(more, e) := streamLoop rounds' stop (S k) scanner' in
                  (sent ++ more, e)
              end
          end
      end
  end.

(** The body of the goroutine up to its [return]. *)
Definition streamBody (c : Client) (req : Request) (stop : nat -> bool)
  : list effect * ending :=
  match HTTPClient c req with
  | inr err => ([SendError err], Returned ExitDoError)
  | inl resp =>
      if negb (StatusCode resp =? 200)
      then ([SendError ErrNon200], Returned ExitStatus)
      else streamLoop (length (io.pending (Body resp)) + 2) stop 0
                      (newEventScanner (Body resp))
  end.

(** A finished or blocked session. *)
Record session : Type := mkSession {
  eventch : chan;
  trace : list effect;
  outcome : ending;
  after : Client
}.

Definition fresh (m : list (chan * chan)) : chan :=
  S (fold_right Nat.max O (map fst m ++ map snd m)).

(** [func (c *Client) Stream(req *http.Request)] together with the
    goroutine it starts.  The [defer] statement evaluates the arguments of
    [closeRespAndCurrStreamCh] when it is executed, which is before
    [resp] is assigned: the deferred call receives the nil [resp].  The
    deferred call runs when the goroutine returns or panics. *)
Definition Stream (c : Client) (req : Request) (stop : nat -> bool) : session :=
  let eventch := fresh (currentlyStreaming c) in
  let c1 := {| HTTPClient := HTTPClient c;
               currentlyStreaming :=
                 assign (currentlyStreaming c) eventch (S eventch) |} in
  let resp : option Response := None in
  let deferred := fun c' => closeRespAndCurrStreamCh c' resp eventch in
  let '(effects, e) := streamBody c1 req stop in
  match e with
  | BlockedOnStop | Unfinished =>
      {| eventch := eventch; trace := effects; outcome := e; after := c1 |}
  | _ =>
      let '(closing, c2) := deferred c1 in
      {| eventch := eventch; trace := effects ++ closing; outcome := e;
         after := c2 |}
  end.

(** Collaborators and stop oracles for concrete sessions: a collaborator
    that answers every request with a given status and body, one that
    fails, and the environment in which [StopStream] is never called. *)
Definition answering (code : Z) (body : io.Reader) : Request -> Response + error :=
  fun _ => inl {| StatusCode := code; Body := body |}.

Definition failing (err : error) : Request -> Response + error :=
  fun _ => inr err.

Definition noStop : nat -> bool := fun _ => false.

(** The values a trace sends on the two channels, and how often it closes
    the response body. *)
Definition sentEvents (t : list effect) : list Event :=
  flat_map (fun x => match x with SendEvent ev => [ev] | _ => [] end) t.

Definition sentErrors (t : list effect) : list error :=
  flat_map (fun x => match x with SendError e => [e] | _ => [] end) t.

Definition bodyCloses (t : list effect) : nat :=
  length (filter (fun x => match x with CloseBody => true | _ => false end) t).

End client.

Import bytes_pkg sse client.

(** * Facts about the [bytes] package *)

Section BytesFacts.

Lemma byte_eqb_eq (x y : byte) : Byte.eqb x y = true <-> x = y.
Proof.
  split; [apply Byte.byte_dec_bl | apply Byte.byte_dec_lb].
Qed.

Lemma byte_eqb_refl (x : byte) : Byte.eqb x x = true.
Proof. now apply byte_eqb_eq. Qed.

Lemma Equal_eq (a b : bytes) : Equal a b = true <-> a = b.
Proof.
  revert b; induction a as [|x a IH]; intros [|y b]; simpl;
    try (split; [discriminate | discriminate]); [tauto|].
  rewrite andb_true_iff, byte_eqb_eq, IH.
  split; [intros [-> ->]; reflexivity | intros [= -> ->]; auto].
Qed.

Lemma HasPrefix_app (s prefix : bytes) :
  HasPrefix s prefix = true <-> exists t, s = prefix ++ t.
Proof.
  revert s; induction prefix as [|p prefix IH]; intros s; simpl.
  - split; [intros _; now exists s | reflexivity].
  - destruct s as [|c s].
    + split; [discriminate | intros [t [=]]].
    + rewrite andb_true_iff, byte_eqb_eq, IH; split.
      * intros [-> [t ->]]; now exists t.
      * intros [t [= -> ->]]; split; [reflexivity | now exists t].
Qed.

Lemma HasPrefix_nil (s : bytes) : HasPrefix s [] = true.
Proof. now destruct s. Qed.

(** [index_from] answers [-1] or an offset of [s] counted from [i]. *)
Lemma index_from_range (s sep : bytes) (i : Z) :
  index_from s sep i = -1 \/
  (i <= index_from s sep i <= i + Z.of_nat (length s)).
Proof.
  revert i; induction s as [|c s IH]; intros i; simpl.
  - destruct (HasPrefix [] sep); [right; lia | now left].
  - destruct (HasPrefix (c :: s) sep); [right; lia|].
    destruct (IH (i + 1)) as [->|H]; [now left | right; lia].
Qed.

Lemma index_from_shift (s sep : bytes) (i : Z) :
  index_from s sep i = -1 /\ index_from s sep 0 = -1 \/
  index_from s sep i = i + index_from s sep 0 /\ 0 <= index_from s sep 0.
Proof.
  revert i; induction s as [|c s IH]; intros i; simpl.
  - destruct (HasPrefix [] sep); [right; lia | left; auto].
  - destruct (HasPrefix (c :: s) sep); [right; lia|].
    destruct (IH (i + 1)) as [[-> H0]|[-> H0]];
      destruct (IH 1) as [[-> H1]|[-> H1]]; lia.
Qed.

Lemma Index_range (s sep : bytes) :
  Index s sep = -1 \/ 0 <= Index s sep <= Z.of_nat (length s).
Proof. exact (index_from_range s sep 0). Qed.

Lemma Index_cons (c : byte) (s sep : bytes) :
  Index (c :: s) sep =
  if HasPrefix (c :: s) sep then 0
  else if Index s sep <? 0 then -1 else 1 + Index s sep.
Proof.
  unfold Index; simpl.
  destruct (HasPrefix (c :: s) sep); [reflexivity|].
  destruct (index_from_shift s sep 1) as [[-> ->]|[-> H]]; [reflexivity|].
  destruct (Z.ltb_spec (index_from s sep 0) 0); [lia | reflexivity].
Qed.

Lemma Index_nil (sep : bytes) : Index [] sep = if HasPrefix [] sep then 0 else -1.
Proof. reflexivity. Qed.

(** A found offset cuts [s] into the part before, [sep], and the rest. *)
Lemma Index_found (s sep : bytes) :
  0 <= Index s sep ->
  s = slice_to s (Index s sep) ++ sep
      ++ slice_from s (Index s sep + Z.of_nat (length sep)).
Proof.
  unfold slice_to, slice_from.
  induction s as [|c s IH].
  - rewrite Index_nil.
    destruct (HasPrefix [] sep) eqn:E; [|lia].
    destruct sep; [reflexivity | discriminate].
  - rewrite Index_cons.
    destruct (HasPrefix (c :: s) sep) eqn:E.
    + intros _. apply HasPrefix_app in E as [t E].
      rewrite E at 1. simpl. rewrite Nat2Z.id, E.
      now rewrite skipn_app, skipn_all, Nat.sub_diag.
    + destruct (Z.ltb_spec (Index s sep) 0) as [|H]; [lia|].
      intros _.
      replace (Z.to_nat (1 + Index s sep)) with (S (Z.to_nat (Index s sep))) by lia.
      replace (Z.to_nat (1 + Index s sep + Z.of_nat (length sep)))
        with (S (Z.to_nat (Index s sep + Z.of_nat (length sep)))) by lia.
      simpl. f_equal. now apply IH.
Qed.

(** A found instance lies inside [s]. *)
Lemma Index_bound (s sep : bytes) :
  0 <= Index s sep -> Index s sep + Z.of_nat (length sep) <= Z.of_nat (length s).
Proof.
  intros H. pose proof (Index_found s sep H) as E.
  apply (f_equal (@length byte)) in E.
  unfold slice_to, slice_from in E.
  rewrite !length_app, length_firstn, length_skipn in E.
  destruct (Index_range s sep) as [|[_ Hle]]; lia.
Qed.

(** Nothing is found before the found offset: the bytes before it do not
    contain [sep] ... *)
Lemma HasPrefix_app_l (a b sep : bytes) :
  HasPrefix a sep = true -> HasPrefix (a ++ b) sep = true.
Proof.
  intros H; apply HasPrefix_app in H as [t ->].
  apply HasPrefix_app; exists (t ++ b); now rewrite app_assoc.
Qed.

(** ... and what a longer buffer lacks, its prefixes lack. *)
Lemma Index_absent_prefix (a b sep : bytes) :
  Index (a ++ b) sep < 0 -> Index a sep < 0.
Proof.
  induction a as [|c a IH]; simpl.
  - rewrite Index_nil. destruct (HasPrefix [] sep) eqn:E; [|lia].
    destruct sep; [|discriminate].
    destruct b; [rewrite Index_nil | rewrite Index_cons]; simpl; lia.
  - rewrite !Index_cons.
    destruct (HasPrefix (c :: a) sep) eqn:E.
    + change (c :: a ++ b) with ((c :: a) ++ b).
      rewrite (HasPrefix_app_l _ b _ E); lia.
    + destruct (HasPrefix (c :: a ++ b) sep); [lia|].
      destruct (Z.ltb_spec (Index (a ++ b) sep) 0) as [H|H]; [|lia].
      intros _. specialize (IH H).
      destruct (Z.ltb_spec (Index a sep) 0); lia.
Qed.

Lemma genSplit_nonempty (n : nat) (s sep : bytes) : genSplit n s sep <> [].
Proof.
  destruct n; simpl; [discriminate|].
  destruct (Index s sep <? 0); discriminate.
Qed.

(** A slice that contains a non-empty separator splits in two pieces at
    least. *)
Lemma Split_two (s : bytes) (p : byte) (sep : bytes) :
  Contains s (p :: sep) = true ->
  exists a b rest, Split s (p :: sep) = a :: b :: rest.
Proof.
  unfold Contains, Split; intros H; apply Z.leb_le in H.
  destruct s as [|c s]; [rewrite Index_nil in H; simpl in H; lia|].
  simpl length; simpl genSplit.
  destruct (Z.ltb_spec (Index (c :: s) (p :: sep)) 0) as [|_]; [lia|].
  match goal with |- context [genSplit ?n ?t ?u] =>
    destruct (genSplit n t u) as [|b rest] eqn:E end.
  - now apply genSplit_nonempty in E.
  - eauto.
Qed.

Lemma TrimSuffix_app (v suffix : bytes) : TrimSuffix (v ++ suffix) suffix = v.
Proof.
  unfold TrimSuffix, HasSuffix.
  rewrite rev_app_distr.
  replace (HasPrefix (rev suffix ++ rev v) (rev suffix)) with true.
  - rewrite length_app, Nat.add_sub.
    now rewrite firstn_app, firstn_all, Nat.sub_diag, app_nil_r.
  - symmetry; apply HasPrefix_app; now exists (rev v).
Qed.

Lemma TrimSuffix_nil (suffix : bytes) : TrimSuffix [] suffix = [].
Proof. unfold TrimSuffix; now destruct (HasSuffix [] suffix). Qed.

End BytesFacts.

(** * The decoder *)

Section Decoder.

(** The index expressions of [readEvent] stay in range. *)
Lemma fieldAndValue_total (line : bytes) :
  exists field value, fieldAndValue line = Some (field, value).
Proof.
  unfold fieldAndValue.
  change (lit ":") with [COLON].
  destruct (Contains line [COLON]) eqn:E; [|eauto].
  apply Split_two in E as (a & b & rest & ->); simpl; eauto.
Qed.

Lemma processLine_total (event : Event) (line : bytes) :
  exists event', processLine event line = Some event'.
Proof.
  unfold processLine.
  destruct (HasPrefix line (lit ":")); [eauto|].
  destruct (fieldAndValue_total line) as (field & value & ->); eauto.
Qed.

Lemma processLines_total (lines : list bytes) (event : Event) :
  exists event', processLines event lines = Some event'.
Proof.
  revert event; induction lines as [|line lines IH]; intros event; simpl; [eauto|].
  destruct (processLine_total event line) as [event' ->]. apply IH.
Qed.

Lemma processLines_app (l1 l2 : list bytes) (event : Event) :
  processLines event (l1 ++ l2) =
  match processLines event l1 with
  | Some event' => processLines event' l2
  | None => None
  end.
Proof.
  revert event; induction l1 as [|line l1 IH]; intros event; simpl; [reflexivity|].
  destruct (processLine event line); [apply IH | reflexivity].
Qed.

Lemma readEvent_cons (c : byte) (data : bytes) :
  readEvent (c :: data) =
  match processLines emptyEvent (FieldsFunc (c :: data) isLineEnd) with
  | Some event =>
      Decoded {| LastEventID := LastEventID event;
                 Type_ := Type_ event;
                 Data := TrimSuffix (Data event) (lit "\n") |}
  | None => DecodePanic
  end.
Proof.
  unfold readEvent.
  destruct (Z.ltb_spec (Z.of_nat (length (c :: data))) 1) as [H|_]; [|reflexivity].
  simpl length in H; lia.
Qed.

Lemma readEvent_nonempty (c : byte) (data : bytes) :
  exists event, readEvent (c :: data) = Decoded event.
Proof.
  rewrite readEvent_cons.
  destruct (processLines_total (FieldsFunc (c :: data) isLineEnd) emptyEvent)
    as [event ->]; eauto.
Qed.

(** The cases of [Test_readEvent]. *)
Example readEvent_data_and_event :
  readEvent (lit "event: update\ndata: this is some test data hello, world\n") =
  Decoded {| LastEventID := EmptyString; Type_ := "update";
             Data := lit "this is some test data hello, world" |}.
Proof. reflexivity. Qed.

Example readEvent_with_keep_alives :
  readEvent (lit ": keep-alive\n: keep-alive\nevent: add\n: keep-alive\ndata:testing 1,2,3\nid: 65\n: keep-alive\n") =
  Decoded {| LastEventID := "65"; Type_ := "add"; Data := lit "testing 1,2,3" |}.
Proof. reflexivity. Qed.

Example readEvent_empty_data :
  readEvent (lit ": keep-alive\ndata\n") =
  Decoded {| LastEventID := EmptyString; Type_ := EmptyString; Data := [] |}.
Proof. reflexivity. Qed.

Example readEvent_no_data : readEvent (lit (String.EmptyString)) = DecodeError ErrDataIsEmpty.
Proof. reflexivity. Qed.

(** C4.  Decoding fails exactly on the zero-length frame: the empty frame
    gets the empty-input error, and every other frame, whatever its
    bytes, gets an event and no error (in particular the index
    expressions of the decoder never go out of range). *)
Theorem readEvent_fails_iff_empty (data : bytes) :
  (data = [] -> readEvent data = DecodeError ErrDataIsEmpty) /\
  (data <> [] -> exists event, readEvent data = Decoded event) /\
  (readEvent data = DecodeError ErrDataIsEmpty -> data = []).
Proof.
  destruct data as [|c data].
  - split; [reflexivity | split; [congruence | reflexivity]].
  - pose proof (readEvent_nonempty c data) as H.
    split; [discriminate | split; [intros _; exact H|]].
    destruct H as [event ->]; discriminate.
Qed.

Lemma readEvent_fails_iff_empty_witness :
  readEvent [] = DecodeError ErrDataIsEmpty /\
  exists event, readEvent (lit ":") = Decoded event.
Proof.
  split.
  - apply (readEvent_fails_iff_empty []); reflexivity.
  - apply (readEvent_fails_iff_empty (lit ":")); vm_compute; discriminate.
Defined.

(** What the loop body does on a [data] line and on an [id] line. *)
Lemma processLine_data (event : Event) (line value : bytes) :
  isField eventTypeData line value ->
  processLine event line =
  Some {| LastEventID := LastEventID event; Type_ := Type_ event;
          Data := value ++ [LF] |}.
Proof.
  intros [Hc Hf]; unfold processLine; rewrite Hc, Hf; reflexivity.
Qed.

Lemma processLine_id (event : Event) (line value : bytes) :
  isField eventTypeID line value ->
  processLine event line =
  Some (if Contains value [NUL] then event
        else {| LastEventID := string_of_list_byte value;
                Type_ := Type_ event; Data := Data event |}).
Proof.
  intros [Hc Hf]; unfold processLine; rewrite Hc, Hf.
  unfold dispatch; simpl Equal; cbv iota.
  change (lit "\0") with [NUL].
  now destruct (Contains value [NUL]).
Qed.

(** Lines that are not [data] lines leave the data buffer alone. *)
Lemma processLine_keeps_Data (event event' : Event) (line : bytes) :
  (forall value, ~ isField eventTypeData line value) ->
  processLine event line = Some event' ->
  Data event' = Data event.
Proof.
  unfold processLine, isField; intros Hn.
  destruct (HasPrefix line (lit ":")); [now intros [= <-]|].
  destruct (fieldAndValue line) as [[field value]|]; [|discriminate].
  intros [= <-]; unfold dispatch.
  destruct (Equal field eventTypeEvent); [reflexivity|].
  destruct (Equal field eventTypeData) eqn:E.
  - apply Equal_eq in E; subst field. now destruct (Hn value).
  - destruct (Equal field eventTypeID); [|now destruct (Equal field eventTypeRetry)].
    now destruct (negb (Contains value (lit "\0"))).
Qed.

Lemma processLines_keep_Data (lines : list bytes) (event event' : Event) :
  (forall line, In line lines -> forall value, ~ isField eventTypeData line value) ->
  processLines event lines = Some event' ->
  Data event' = Data event.
Proof.
  revert event; induction lines as [|line lines IH]; intros event Hn; simpl.
  - now intros [= <-].
  - destruct (processLine event line) as [event1|] eqn:E; [|discriminate].
    intros H. rewrite (IH event1); [|intros l Hl; apply Hn; now right | exact H].
    apply (processLine_keeps_Data _ _ line); [apply Hn; now left | exact E].
Qed.

(** Lines that are not [id] lines with a NUL-free value leave the last
    event id alone. *)
Lemma processLine_keeps_LastEventID (event event' : Event) (line : bytes) :
  (forall value, isField eventTypeID line value -> Contains value [NUL] = true) ->
  processLine event line = Some event' ->
  LastEventID event' = LastEventID event.
Proof.
  unfold processLine, isField; intros Hn.
  destruct (HasPrefix line (lit ":")); [now intros [= <-]|].
  destruct (fieldAndValue line) as [[field value]|]; [|discriminate].
  intros [= <-]; unfold dispatch.
  destruct (Equal field eventTypeEvent); [reflexivity|].
  destruct (Equal field eventTypeData); [reflexivity|].
  destruct (Equal field eventTypeID) eqn:E;
    [|now destruct (Equal field eventTypeRetry)].
  apply Equal_eq in E; subst field.
  change (lit "\0") with [NUL]. now rewrite (Hn value).
Qed.

Lemma processLines_keep_LastEventID (lines : list bytes) (event event' : Event) :
  (forall line, In line lines ->
     forall value, isField eventTypeID line value -> Contains value [NUL] = true) ->
  processLines event lines = Some event' ->
  LastEventID event' = LastEventID event.
Proof.
  revert event; induction lines as [|line lines IH]; intros event Hn; simpl.
  - now intros [= <-].
  - destruct (processLine event line) as [event1|] eqn:E; [|discriminate].
    intros H. rewrite (IH event1); [|intros l Hl; apply Hn; now right | exact H].
    apply (processLine_keeps_LastEventID _ _ line); [apply Hn; now left | exact E].
Qed.

(** A frame that has lines is not empty. *)
Lemma FieldsFunc_nil (f : byte -> bool) : FieldsFunc [] f = [].
Proof. reflexivity. Qed.

(** The decoder on a frame whose lines are known. *)
Lemma readEvent_lines (frame : bytes) (before after : list bytes)
      (line : bytes) (step : Event -> Event) :
  FieldsFunc frame isLineEnd = before ++ line :: after ->
  (forall event0, processLine event0 line = Some (step event0)) ->
  exists event0 event2,
    processLines emptyEvent before = Some event0 /\
    processLines (step event0) after = Some event2 /\
    readEvent frame =
    Decoded {| LastEventID := LastEventID event2; Type_ := Type_ event2;
               Data := TrimSuffix (Data event2) (lit "\n") |}.
Proof.
  intros Hl Hs.
  destruct frame as [|c frame].
  - rewrite FieldsFunc_nil in Hl. now destruct before.
  - rewrite readEvent_cons, Hl, processLines_app.
    destruct (processLines_total before emptyEvent) as [event0 E0].
    rewrite E0; simpl; rewrite Hs.
    destruct (processLines_total after (step event0)) as [event2 E2].
    rewrite E2. now exists event0, event2.
Qed.

(** C1.  A [data] line overwrites the data buffer with its value followed
    by one LF, whatever the buffer held; at the end one trailing LF, and
    no more than one, is removed from the buffer; so a frame decodes to
    the value of its last [data] line.
    For instance the frame with the lines [data: a] and [data: b] decodes
    to the data [b]. *)
Theorem readEvent_last_data_line_wins :
  (forall (event : Event) (line value : bytes),
      isField eventTypeData line value ->
      processLine event line =
      Some {| LastEventID := LastEventID event; Type_ := Type_ event;
              Data := value ++ [LF] |}) /\
  (forall buffer : bytes, TrimSuffix (buffer ++ [LF]) (lit "\n") = buffer) /\
  (forall (frame : bytes) (before after : list bytes) (line value : bytes),
      FieldsFunc frame isLineEnd = before ++ line :: after ->
      isField eventTypeData line value ->
      (forall l, In l after -> forall w, ~ isField eventTypeData l w) ->
      exists event, readEvent frame = Decoded event /\ Data event = value) /\
  readEvent (lit "data: a\ndata: b\n") =
  Decoded {| LastEventID := EmptyString; Type_ := EmptyString; Data := lit "b" |}.
Proof.
  split; [exact processLine_data|].
  split; [intros buffer; apply (TrimSuffix_app buffer [LF])|].
  split; [|reflexivity].
  intros frame before after line value Hl Hd Hafter.
  destruct (readEvent_lines frame before after line
              (fun event => {| LastEventID := LastEventID event;
                               Type_ := Type_ event; Data := value ++ [LF] |}) Hl)
    as (event0 & event2 & _ & E2 & ->).
  { intros event0; now apply processLine_data. }
  eexists; split; [reflexivity|]. simpl.
  rewrite (processLines_keep_Data after _ _ Hafter E2). simpl.
  apply (TrimSuffix_app value [LF]).
Qed.

Lemma readEvent_last_data_line_wins_witness :
  exists event,
    readEvent (lit "data: a\nevent: e\ndata:b\nid: 1") = Decoded event /\
    Data event = lit "b".
Proof.
  apply (proj1 (proj2 (proj2 readEvent_last_data_line_wins))
           (lit "data: a\nevent: e\ndata:b\nid: 1")
           [lit "data: a"; lit "event: e"] [lit "id: 1"] (lit "data:b") (lit "b")).
  - reflexivity.
  - split; reflexivity.
  - intros l [<-|[]] w [_ H]. vm_compute in H. discriminate.
Defined.

(** C5.  An [id] line sets the last event id to its value exactly when
    the value holds no NUL byte, and otherwise leaves the event as it
    was; so a frame decodes to the value of its last [id] line that is
    free of NUL.  For instance [id: 65] followed by an [id] line whose
    value holds a NUL decodes to the last event id [65]. *)
Theorem readEvent_id_ignored_on_NUL :
  (forall (event : Event) (line value : bytes),
      isField eventTypeID line value ->
      processLine event line =
      Some (if Contains value [NUL] then event
            else {| LastEventID := string_of_list_byte value;
                    Type_ := Type_ event; Data := Data event |})) /\
  (forall (frame : bytes) (before after : list bytes) (line value : bytes),
      FieldsFunc frame isLineEnd = before ++ line :: after ->
      isField eventTypeID line value ->
      Contains value [NUL] = false ->
      (forall l, In l after ->
         forall w, isField eventTypeID l w -> Contains w [NUL] = true) ->
      exists event,
        readEvent frame = Decoded event /\
        LastEventID event = string_of_list_byte value) /\
  readEvent (lit "id: 65\nid: \0bad") =
  Decoded {| LastEventID := "65"; Type_ := EmptyString; Data := [] |}.
Proof.
  split; [exact processLine_id | split; [|reflexivity]].
  intros frame before after line value Hl Hd Hnul Hafter.
  destruct (readEvent_lines frame before after line
              (fun event => {| LastEventID := string_of_list_byte value;
                               Type_ := Type_ event; Data := Data event |}) Hl)
    as (event0 & event2 & _ & E2 & ->).
  { intros event0. rewrite (processLine_id _ _ _ Hd), Hnul. reflexivity. }
  eexists; split; [reflexivity|]. simpl.
  now rewrite (processLines_keep_LastEventID after _ _ Hafter E2).
Qed.

Lemma readEvent_id_ignored_on_NUL_witness :
  exists event,
    readEvent (lit "id: 65\ndata: x\nid: \0bad\n") = Decoded event /\
    LastEventID event = "65"%string.
Proof.
  apply (proj1 (proj2 readEvent_id_ignored_on_NUL)
           (lit "id: 65\ndata: x\nid: \0bad\n")
           [] [lit "data: x"; lit "id: \0bad"] (lit "id: 65") (lit "65")).
  - reflexivity.
  - split; reflexivity.
  - reflexivity.
  - intros l [<-|[<-|[]]] w [_ H]; vm_compute in H; [discriminate|].
    injection H as <-. reflexivity.
Defined.

End Decoder.

(** * Line terminators *)

Section LineTerminators.

Variable f : byte -> bool.

(** A separator closes the open span and starts afresh. *)
Lemma fields_loop_sep (t : byte) (a b : bytes) (open : option bytes) :
  f t = true ->
  fields_loop f open (a ++ t :: b) = fields_loop f open a ++ fields_loop f None b.
Proof.
  intros Ht; revert open; induction a as [|c a IH]; intros open; simpl.
  - now rewrite Ht.
  - destruct (f c).
    + now rewrite IH, app_assoc.
    + destruct open; apply IH.
Qed.

(** Writing one separator for another changes no field. *)
Lemma fields_loop_pointwise (s s' : bytes) (open : option bytes) :
  Forall2 (fun x y => x = y \/ (f x = true /\ f y = true)) s s' ->
  fields_loop f open s = fields_loop f open s'.
Proof.
  intros H; revert open; induction H as [|x y s s' Hxy _ IH]; intros open; simpl.
  - reflexivity.
  - destruct Hxy as [<-|[-> ->]].
    + destruct (f x); [now rewrite IH | destruct open; apply IH].
    + now rewrite IH.
Qed.

End LineTerminators.

Section TerminatorInvariance.

Lemma isLineEnd_LF : isLineEnd LF = true.
Proof. reflexivity. Qed.

Lemma isLineEnd_CR : isLineEnd CR = true.
Proof. reflexivity. Qed.

Lemma fields_replace_crlf (cuts : nat) (s : bytes) :
  fields_loop isLineEnd None (replace_go cuts s [CR; LF] [LF]) =
  fields_loop isLineEnd None s.
Proof.
  revert s; induction cuts as [|cuts IH]; intros s; simpl; [reflexivity|].
  destruct (Z.ltb_spec (Index s [CR; LF]) 0) as [|H]; [reflexivity|].
  rewrite (fields_loop_sep isLineEnd LF _ _ None isLineEnd_LF), IH.
  transitivity (fields_loop isLineEnd None
                  (slice_to s (Index s [CR; LF]) ++ [CR; LF]
                   ++ slice_from s (Index s [CR; LF] + Z.of_nat (length [CR; LF])))).
  - simpl app.
    rewrite (fields_loop_sep isLineEnd CR _ _ None isLineEnd_CR).
    reflexivity.
  - f_equal. symmetry. now apply Index_found.
Qed.

Lemma replace_go_nonempty (cuts : nat) (c : byte) (s old : bytes) (n : byte) (new : bytes) :
  replace_go cuts (c :: s) old (n :: new) <> [].
Proof.
  destruct cuts; simpl; [discriminate|].
  destruct (Index (c :: s) old <? 0); [discriminate|].
  destruct (slice_to (c :: s) (Index (c :: s) old)); discriminate.
Qed.

Lemma loneCRtoLF_pointwise (s : bytes) :
  Forall2 (fun x y => x = y \/ (isLineEnd x = true /\ isLineEnd y = true))
          (loneCRtoLF s) s.
Proof.
  induction s as [|c s IH]; cbn [loneCRtoLF]; constructor; [|exact IH].
  destruct (Byte.eqb c CR) eqn:E; [|now left].
  apply byte_eqb_eq in E; subst c.
  destruct (HasPrefix s [LF]); [now left | now right].
Qed.

(** The decoder looks at a frame through its length test and its lines
    only. *)
Lemma readEvent_same_lines (frame frame' : bytes) :
  (frame = [] <-> frame' = []) ->
  FieldsFunc frame isLineEnd = FieldsFunc frame' isLineEnd ->
  readEvent frame = readEvent frame'.
Proof.
  intros He Hl.
  destruct frame as [|c frame], frame' as [|c' frame'].
  - reflexivity.
  - now destruct (proj1 He eq_refl).
  - now destruct (proj2 He eq_refl).
  - now rewrite !readEvent_cons, Hl.
Qed.

(** C10.  Decoding does not depend on the line-terminator convention: a
    frame decodes as the frame in which LF is written for every CRLF
    pair, and as the frame in which LF is written for every CR that no LF
    follows.  (The frame may even be empty: both sides then fail alike.)
    The call of [bytes.Replace] inside [readEvent] plays no part in
    this; line splitting alone, which cuts at LF and at CR and drops
    empty lines, gives it. *)
Theorem readEvent_terminator_invariant (frame : bytes) :
  readEvent (crlfToLF frame) = readEvent frame /\
  readEvent (loneCRtoLF frame) = readEvent frame.
Proof.
  split; apply readEvent_same_lines.
  - unfold crlfToLF, Replace. change (lit "\r\n") with [CR; LF].
    change (lit "\n") with [LF].
    destruct frame as [|c frame]; [tauto|].
    split; [intros H; now apply replace_go_nonempty in H | discriminate].
  - apply fields_replace_crlf.
  - destruct frame; simpl; split; discriminate || reflexivity.
  - apply fields_loop_pointwise, loneCRtoLF_pointwise.
Qed.

End TerminatorInvariance.

(** * The segmenter *)

Section SplitFunction.

Lemma len_pos (data : bytes) : data <> [] -> 0 < bufio.len data.
Proof. destruct data; [congruence | unfold bufio.len; simpl; lia]. Qed.

Lemma len_nil_iff (data : bytes) : bufio.len data = 0 <-> data = [].
Proof.
  unfold bufio.len; destruct data; simpl; split; try reflexivity; try discriminate; lia.
Qed.

(** At the end of the stream the split function hands out all it is
    given, and nothing when given nothing. *)
Lemma eventScannerFunc_atEOF (data : bytes) :
  data <> [] ->
  eventScannerFunc data true = (bufio.len data, Some data, None).
Proof.
  intros H; unfold eventScannerFunc; simpl.
  destruct (Z.eqb_spec (bufio.len data) 0) as [E|_]; [|reflexivity].
  now apply len_nil_iff in E.
Qed.

Lemma eventScannerFunc_atEOF_nil : eventScannerFunc [] true = (0, None, None).
Proof. reflexivity. Qed.

(** Before the end of the stream a buffer without a boundary gives no
    frame: the scanner is asked for more bytes. *)
Lemma eventScannerFunc_waits (data : bytes) :
  hasBoundary data = false ->
  eventScannerFunc data false = (0, None, None).
Proof.
  unfold hasBoundary, eventScannerFunc; intros H.
  apply orb_false_iff in H as [H H3]; apply orb_false_iff in H as [H1 H2].
  simpl andb; cbv iota. now rewrite H1, H2, H3.
Qed.

Lemma hasBoundary_prefix (a b : bytes) :
  hasBoundary (a ++ b) = false -> hasBoundary a = false.
Proof.
  unfold hasBoundary; intros H.
  apply orb_false_iff in H as [H H3]; apply orb_false_iff in H as [H1 H2].
  apply Z.leb_gt in H1, H2, H3.
  apply Index_absent_prefix in H1, H2, H3.
  apply Z.leb_gt in H1, H2, H3. now rewrite H1, H2, H3.
Qed.

End SplitFunction.

(** Case analysis on the first integer comparison that guards the goal. *)
Ltac case_ltb H :=
  match goal with
  | |- context [if (?a <? ?b)%Z then _ else _] => destruct (Z.ltb_spec a b) as [H|H]
  end.

Section ScannerFacts.
Import io bufio.

(** A [Read] hands over a prefix of what the source holds, never more than
    there is room for, and makes the script smaller whenever it returns
    bytes without an error. *)
Lemma Read_spec (rd : Reader) (room : nat) :
  forall got e rd', Read rd room = (got, e, rd') ->
  pending rd = got ++ pending rd' /\
  (weight rd' <= weight rd)%nat /\
  (got <> [] -> (weight rd' < weight rd)%nat) /\
  (length got <= room)%nat.
Proof.
  intros got e rd'; unfold Read, weight.
  destruct rd as [|[c e0] rest].
  - intros [= <- <- <-]; simpl; repeat split; try lia. congruence.
  - destruct (Nat.leb_spec (length c) room) as [Hc|Hc]; intros [= <- <- <-]; simpl.
    + rewrite length_app; repeat split; lia.
    + rewrite !length_app, length_skipn, length_firstn.
      split; [now rewrite app_assoc, firstn_skipn|].
      repeat split; try lia.
      intros Hne. destruct room; [now destruct Hne|]. lia.
Qed.

Lemma setErr_None (s : Scanner) (e : error) :
  err s = None -> setErr s e = with_err s (Some e).
Proof. unfold setErr; now intros ->. Qed.

(** The read loop keeps the bytes of the stream in order, and either
    records an error or takes something from the source. *)
Lemma fill_spec (tries : nat) (s : Scanner) :
  err s = None -> tries <> O ->
  split (fill tries s) = split s /\
  done (fill tries s) = done s /\
  data (fill tries s) ++ pending (r (fill tries s)) = data s ++ pending (r s) /\
  (err (fill tries s) <> None \/ (weight (r (fill tries s)) < weight (r s))%nat).
Proof.
  revert s; induction tries as [|tries IH]; intros s He Ht; [congruence|].
  cbn [fill].
  destruct (Read (r s) (Z.to_nat (buf_len s - end_ s))) as [[got e] rd'] eqn:ER.
  apply Read_spec in ER as (Hp & Hw & Hprog & Hlen).
  destruct (Z.ltb_spec (buf_len s - end_ s) (len got)) as [Hbad|Hok].
  - assert (got = []) as ->.
    { unfold len in Hbad. destruct got; [reflexivity | simpl length in *; lia]. }
    rewrite setErr_None by exact He; simpl.
    rewrite Hp; repeat split; left; discriminate.
  - destruct e as [e|].
    + rewrite setErr_None by exact He; simpl.
      rewrite Hp, app_assoc; repeat split; left; discriminate.
    + destruct (Z.ltb_spec 0 (len got)) as [Hpos|Hzero].
      * simpl. rewrite Hp, app_assoc; repeat split; right.
        apply Hprog. intros ->; unfold len in Hpos; simpl in Hpos; lia.
      * assert (got = []) as ->.
        { unfold len in Hzero. destruct got; [reflexivity | simpl length in *; lia]. }
        simpl in Hp.
        destruct tries as [|tries].
        -- rewrite setErr_None by exact He; simpl.
           rewrite Hp; repeat split; left; discriminate.
        -- match goal with |- context [fill (S tries) ?x] => set (s1 := x) end.
           destruct (IH s1 He) as (H1 & H2 & H3 & H4); [discriminate|].
           rewrite H1, H2, H3. subst s1; cbn [split done data r] in *.
           rewrite Hp. repeat split.
           destruct H4 as [H4|H4]; [now left | right; lia].
Qed.

Lemma weight_ofChunks_cons (c : bytes) (chunks : list bytes) :
  weight (ofChunks (c :: chunks)) = (S (length c) + weight (ofChunks chunks))%nat.
Proof. unfold weight; simpl. rewrite length_app. lia. Qed.

(** With room in the buffer, one [Read] ends the read loop: the source
    is at its end, or it hands over some bytes of its first chunk. *)
Lemma fill_chunks (tries : nat) (s : Scanner) (chunks : list bytes) :
  err s = None -> r s = ofChunks chunks -> Forall (fun c => c <> []) chunks ->
  start s = 0 -> len (data s) < buf_len s ->
  split (fill (S tries) s) = split s /\
  maxTokenSize (fill (S tries) s) = maxTokenSize s /\
  done (fill (S tries) s) = done s /\
  start (fill (S tries) s) = 0 /\
  len (data (fill (S tries) s)) <= buf_len (fill (S tries) s) /\
  exists chunks',
    r (fill (S tries) s) = ofChunks chunks' /\
    Forall (fun c => c <> []) chunks' /\
    data (fill (S tries) s) ++ concat chunks' = data s ++ concat chunks /\
    ((chunks = [] /\ chunks' = [] /\ err (fill (S tries) s) = Some EOF) \/
     (err (fill (S tries) s) = None /\
      (weight (ofChunks chunks') < weight (ofChunks chunks))%nat)).
Proof.
  intros He Hr Hne Hst Hroom. cbn [fill]. unfold end_, len in *.
  rewrite Hr, Hst, !Z.add_0_l.
  destruct chunks as [|c chunks]; simpl Read.
  - cbv beta iota zeta.
    case_ltb Hbad; [simpl length in Hbad; lia|].
    rewrite setErr_None by exact He. simpl. rewrite app_nil_r.
    repeat split; try lia; auto.
    exists []; repeat split; auto. simpl; now rewrite app_nil_r.
  - assert (Hc : c <> []) by now inversion Hne.
    assert (Hcs : Forall (fun c => c <> []) chunks) by now inversion Hne.
    assert (Hlc : (1 <= length c)%nat) by (destruct c; [congruence | simpl; lia]).
    set (room := Z.to_nat (buf_len s - Z.of_nat (length (data s)))).
    assert (Hroom' : (1 <= room)%nat) by (unfold room; lia).
    destruct (Nat.leb_spec (length c) room) as [Hfit|Hcut].
    + cbv beta iota zeta.
      case_ltb Hbad; [unfold room in Hfit; lia|].
      case_ltb Hz; [|lia].
      simpl. repeat split; auto.
      * rewrite length_app. unfold room in Hfit. lia.
      * exists chunks. repeat split; auto; [now rewrite app_assoc|].
        right; split; [exact He|].
        unfold weight; simpl; rewrite ?length_app; lia.
    + pose proof (length_firstn room c) as Hlf.
      cbv beta iota zeta.
      case_ltb Hbad; [rewrite Hlf in Hbad; unfold room in *; lia|].
      case_ltb Hz; [|rewrite Hlf in Hz; lia].
      simpl. repeat split; auto.
      * rewrite length_app, Hlf. unfold room in *. lia.
      * exists (skipn room c :: chunks). repeat split; auto.
        -- constructor; [|exact Hcs].
           intros E. apply (f_equal (@length byte)) in E.
           rewrite length_skipn in E. simpl in E. lia.
        -- simpl. now rewrite <- app_assoc, (app_assoc (firstn room c)), firstn_skipn.
        -- right; split; [exact He|].
           unfold weight; simpl; rewrite ?length_app, ?length_skipn; lia.
Qed.

Local Arguments fill : simpl never.

Lemma rounds_for_S (s : Scanner) : exists n, rounds_for s = S (S n).
Proof. exists (weight (r s)); unfold rounds_for; lia. Qed.

(** Once the source has reported an error, a buffered remainder is the
    next frame, whole, and it empties the buffer ... *)
Lemma scan_loop_final_frame (rounds : nat) (s : Scanner) (e : error) :
  split s = eventScannerFunc -> err s = Some e -> data s <> [] ->
  exists s',
    scan_loop (S rounds) s = Scanned true s' /\
    token s' = Some (data s) /\ split s' = eventScannerFunc /\
    done s' = done s /\ err s' = Some e /\ data s' = [].
Proof.
  destruct s as [rd sp mts tok bl st d er em dn]; simpl.
  intros -> -> Hd.
  unfold offer; simpl.
  rewrite orb_true_r, (eventScannerFunc_atEOF d Hd).
  unfold advance; simpl.
  pose proof (len_pos d Hd) as Hpos.
  destruct (Z.ltb_spec (len d) 0) as [|_]; [lia|].
  rewrite Z.ltb_irrefl.
  destruct (Z.ltb_spec 0 (len d)) as [_|]; [|lia].
  simpl. eexists; split; [reflexivity|]. simpl.
  unfold len; rewrite Nat2Z.id, skipn_all. auto.
Qed.

(** ... and with nothing buffered the scan ends. *)
Lemma scan_loop_exhausted (rounds : nat) (s : Scanner) (e : error) :
  split s = eventScannerFunc -> err s = Some e -> data s = [] ->
  exists s', scan_loop (S rounds) s = Scanned false s' /\ err s' = Some e /\
             split s' = eventScannerFunc /\ done s' = done s /\ data s' = [].
Proof.
  destruct s as [rd sp mts tok bl st d er em dn]; simpl.
  intros -> -> ->.
  unfold offer; simpl. unfold advance; simpl.
  eexists; split; [reflexivity|]. simpl; auto.
Qed.

Lemma scanEvent_error (s s' : Scanner) (e : error) :
  bufio.Scan s = Scanned false s' -> err s' = Some e ->
  scanEvent s = ScanError e s'.
Proof.
  intros HS He; unfold scanEvent; rewrite HS; unfold Err; rewrite He.
  now destruct e.
Qed.

Lemma scanEvent_frame (s s' : Scanner) (f : bytes) :
  bufio.Scan s = Scanned true s' -> token s' = Some f ->
  scanEvent s = Frame f s'.
Proof.
  intros HS Ht; unfold scanEvent; rewrite HS; unfold Bytes; now rewrite Ht.
Qed.

Lemma Scan_loop (s : Scanner) :
  done s = false -> exists n, bufio.Scan s = scan_loop (S (S n)) s.
Proof.
  intros Hd; unfold bufio.Scan; rewrite Hd.
  destruct (rounds_for_S s) as [n ->]. now exists n.
Qed.

Lemma scanEvents_S (calls : nat) (s : Scanner) :
  scanEvents (S calls) s =
  match scanEvent s with
  | Frame f s' => add_frame f (scanEvents calls s')
  | ScanError e _ => FramesThen [] e
  | ScanEventPanic => FramesPanic []
  | ScanEventUnfinished => FramesUnfinished []
  end.
Proof. reflexivity. Qed.

(** After the source has reported an error: the buffered remainder is
    returned once, and then the error. *)
Lemma scanEvents_exhausted (calls : nat) (s : Scanner) (e : error) :
  split s = eventScannerFunc -> done s = false -> err s = Some e ->
  scanEvents (S (S calls)) s =
  FramesThen (match data s with [] => [] | _ => [data s] end) e.
Proof.
  intros Hsp Hdn He.
  assert (Hlast : forall s', split s' = eventScannerFunc -> done s' = false ->
                    err s' = Some e -> data s' = [] ->
                    forall n, scanEvents (S n) s' = FramesThen [] e).
  { intros s' Hsp' Hdn' He' Hd' n. rewrite scanEvents_S.
    destruct (Scan_loop s' Hdn') as [k Hk].
    destruct (scan_loop_exhausted (S k) s' e Hsp' He' Hd') as (s'' & Hs'' & He'' & _).
    rewrite <- Hk in Hs''. now rewrite (scanEvent_error _ _ _ Hs'' He''). }
  destruct (data s) as [|c d] eqn:Ed; [now apply Hlast|].
  rewrite scanEvents_S.
  destruct (Scan_loop s Hdn) as [k Hk].
  destruct (scan_loop_final_frame (S k) s e Hsp He)
    as (s' & Hs' & Ht & Hsp' & Hdn' & He' & Hd'); [rewrite Ed; discriminate|].
  rewrite <- Hk in Hs'. rewrite (scanEvent_frame _ _ _ Hs' Ht).
  rewrite Hdn in Hdn'. rewrite (Hlast s' Hsp' Hdn' He' Hd'), Ed. reflexivity.
Qed.

(** The reading half of a round stops with [ErrTooLong], or reads. *)
Lemma refill_spec (s : Scanner) :
  err s = None ->
  (exists s2, refill s = inl (Scanned false s2) /\ err s2 <> None) \/
  (exists s2, refill s = inr s2 /\ split s2 = split s /\ done s2 = done s /\
              data s2 ++ pending (r s2) = data s ++ pending (r s) /\
              (err s2 <> None \/ (weight (r s2) < weight (r s))%nat)).
Proof.
  intros He; unfold refill; rewrite He.
  match goal with |- context [if ?c then _ else _] => destruct c end.
  - match goal with |- context [if ?c then _ else _] => destruct c end.
    + left; eexists; split; [reflexivity|].
      rewrite setErr_None by exact He; discriminate.
    + match goal with |- context [fill _ ?x] => set (y := x) end.
      destruct (fill_spec (S maxConsecutiveEmptyReads) y eq_refl)
        as (H1 & H2 & H3 & H4); [discriminate|].
      right; exists (fill (S maxConsecutiveEmptyReads) y).
      exact (conj eq_refl (conj H1 (conj H2 (conj H3 H4)))).
  - match goal with |- context [fill _ ?x] => set (y := x) end.
    destruct (fill_spec (S maxConsecutiveEmptyReads) y eq_refl)
      as (H1 & H2 & H3 & H4); [discriminate|].
    right; exists (fill (S maxConsecutiveEmptyReads) y).
    exact (conj eq_refl (conj H1 (conj H2 (conj H3 H4)))).
Qed.

(** While no error has been recorded and the stream has no boundary, a
    scan reads on; it ends with an error and no frame, or with one frame
    that holds all the bytes read, the error recorded, and an empty
    buffer. *)
Lemma scan_loop_no_boundary (rounds : nat) (s : Scanner) :
  split s = eventScannerFunc -> err s = None ->
  hasBoundary (data s ++ pending (r s)) = false ->
  (weight (r s) + 2 <= rounds)%nat ->
  (exists s' e, scan_loop rounds s = Scanned false s' /\ err s' = Some e) \/
  (exists s' e f rest,
      scan_loop rounds s = Scanned true s' /\
      token s' = Some f /\ f <> [] /\ data s ++ pending (r s) = f ++ rest /\
      split s' = eventScannerFunc /\ done s' = done s /\
      err s' = Some e /\ data s' = []).
Proof.
  revert s; induction rounds as [|rounds IH]; intros s Hsp He Hb Hr; [lia|].
  cbn [scan_loop].
  (* the split function has nothing to give *)
  assert (Ho : exists s1, offer s = inr s1 /\ split s1 = split s /\
                          err s1 = None /\ data s1 = data s /\ r s1 = r s /\
                          done s1 = done s).
  { unfold offer. rewrite He, Hsp; simpl notNil; rewrite orb_false_r.
    destruct (Z.ltb_spec 0 (len (data s))) as [Hpos|_];
      [|exists s; repeat split; auto].
    rewrite (eventScannerFunc_waits _ (hasBoundary_prefix _ _ Hb)).
    unfold advance; simpl. destruct (Z.ltb_spec (len (data s)) 0) as [|_]; [lia|].
    eexists; split; [reflexivity|]; simpl; repeat split; auto. }
  destruct Ho as (s1 & -> & Hsp1 & He1 & Hd1 & Hr1 & Hdn1).
  (* the buffer is too long, or more is read *)
  destruct (refill_spec s1 He1)
    as [(s2 & -> & He2)|(s2 & -> & Hsp2 & Hdn2 & Hbytes & Hprog)];
    rewrite ?Hsp1, ?Hdn1, ?Hd1, ?Hr1 in *.
  - left. destruct (err s2) as [e|] eqn:E; [|congruence]. now exists s2, e.
  - destruct (err s2) as [e|] eqn:E2.
    + (* the source is exhausted: the next round ends the scan *)
      destruct rounds as [|rounds]; [lia|].
      rewrite Hsp in Hsp2.
      destruct (data s2) as [|c d] eqn:Ed.
      * left. destruct (scan_loop_exhausted rounds s2 e Hsp2 E2 Ed) as (s' & -> & He' & _).
        now exists s', e.
      * right.
        destruct (scan_loop_final_frame rounds s2 e Hsp2 E2) as (s' & -> & Ht & Hs' & Hd' & He' & Hdata');
          [rewrite Ed; discriminate|].
        exists s', e, (c :: d), (pending (r s2)).
        rewrite Ht, Ed, <- Hbytes, Hd', Hdn2. repeat split; auto. discriminate.
    + destruct Hprog as [Hprog|Hprog]; [congruence|].
      rewrite Hsp in Hsp2. rewrite <- Hbytes in Hb.
      destruct (IH s2 Hsp2 E2 Hb) as [Hfalse|(s' & e & f & rest & H1 & H2 & H3 & H4 & H5 & H6 & H7 & H8)];
        [lia | now left |].
      right. exists s', e, f, rest. rewrite <- Hbytes, <- Hdn2. repeat split; auto.
Qed.

Lemma pending_ofChunks (chunks : list bytes) :
  pending (ofChunks chunks) = concat chunks.
Proof.
  induction chunks as [|c chunks IH]; simpl; [reflexivity | now rewrite IH].
Qed.

(** A stream without a boundary gives one frame at most, made of the
    bytes read from it. *)
Lemma segment_no_boundary (body : Reader) :
  hasBoundary (pending body) = false ->
  exists fs e,
    segment body = FramesThen fs e /\
    (fs = [] \/ exists f rest, fs = [f] /\ f <> [] /\ pending body = f ++ rest).
Proof.
  intros Hb; unfold segment.
  replace (length (pending body) + 2)%nat with (S (S (length (pending body)))) by lia.
  rewrite scanEvents_S.
  destruct (scan_loop_no_boundary (rounds_for (newEventScanner body))
              (newEventScanner body) eq_refl eq_refl Hb (Nat.le_refl _))
    as [(s' & e & Hs & He)|(s' & e & f & rest & Hs & Ht & Hf & Hbytes & Hsp & Hdn & He & Hd)].
  - rewrite (scanEvent_error (newEventScanner body) s' e Hs He).
    exists [], e; auto.
  - rewrite (scanEvent_frame (newEventScanner body) s' f Hs Ht).
    destruct (length (pending body)) as [|n] eqn:El.
    + (* no bytes at all: the frame would be empty *)
      apply length_zero_iff_nil in El. simpl in Hbytes. rewrite El in Hbytes.
      destruct f; [congruence | discriminate].
    + rewrite (scanEvents_exhausted n s' e Hsp Hdn He), Hd. simpl.
      exists [f], e; split; [reflexivity|]. right; now exists f, rest.
Qed.

(** ** Streams that arrive in non-empty chunks and fit the buffer *)

Lemma offer_waits (s : Scanner) :
  split s = eventScannerFunc -> err s = None -> hasBoundary (data s) = false ->
  exists s1,
    offer s = inr s1 /\ r s1 = r s /\ split s1 = split s /\
    maxTokenSize s1 = maxTokenSize s /\ buf_len s1 = buf_len s /\
    start s1 = start s /\ data s1 = data s /\ err s1 = None /\ done s1 = done s.
Proof.
  intros Hsp He Hb. unfold offer. rewrite He, Hsp; simpl notNil; rewrite orb_false_r.
  destruct (Z.ltb_spec 0 (len (data s))) as [Hpos|_].
  - rewrite (eventScannerFunc_waits _ Hb).
    unfold advance; simpl. destruct (Z.ltb_spec (len (data s)) 0) as [|_]; [lia|].
    eexists; split; [reflexivity|]; simpl. rewrite Z.add_0_r. repeat split; auto.
  - exists s; repeat split; auto.
Qed.

Lemma refill_makes_room (s : Scanner) :
  err s = None -> start s = 0 -> len (data s) <= buf_len s ->
  maxTokenSize s = MaxScanTokenSize -> len (data s) < MaxScanTokenSize ->
  exists s1,
    refill s = inr (fill (S maxConsecutiveEmptyReads) s1) /\
    r s1 = r s /\ split s1 = split s /\ maxTokenSize s1 = maxTokenSize s /\
    start s1 = 0 /\ data s1 = data s /\ err s1 = None /\ done s1 = done s /\
    len (data s) < buf_len s1.
Proof.
  intros He Hst Hle Hmax Hlt. unfold refill. rewrite He, Hst, Hmax. simpl andb. cbv iota.
  unfold MaxScanTokenSize in *.
  destruct (Z.eqb_spec (0 + len (data s)) (buf_len s)) as [Hfull|Hroom].
  - destruct (Z.leb_spec (64 * 1024) (buf_len s)) as [|_]; [lia|].
    destruct (Z.ltb_spec (maxInt / 2) (buf_len s)) as [Hbig|_].
    { unfold maxInt in Hbig.
      assert (64 * 1024 < (2 ^ 63 - 1) / 2) by (vm_compute; reflexivity). lia. }
    simpl orb. cbv iota.
    eexists; split; [reflexivity|]. simpl. repeat split; auto.
    unfold startBufSize, len in *.
    destruct (Z.eqb_spec (buf_len s * 2) 0); lia.
  - eexists; split; [reflexivity|]. simpl. repeat split; auto. lia.
Qed.

(** Such a stream, when it has no boundary, is read to its end and then
    returned whole. *)
Lemma scan_loop_whole (rounds : nat) (s : Scanner) (chunks : list bytes) :
  split s = eventScannerFunc -> err s = None -> r s = ofChunks chunks ->
  Forall (fun c => c <> []) chunks ->
  start s = 0 -> len (data s) <= buf_len s ->
  maxTokenSize s = MaxScanTokenSize ->
  hasBoundary (data s ++ concat chunks) = false ->
  len (data s ++ concat chunks) < MaxScanTokenSize ->
  (weight (ofChunks chunks) + 2 <= rounds)%nat ->
  exists s',
    scan_loop rounds s =
    Scanned (match data s ++ concat chunks with [] => false | _ => true end) s' /\
    (data s ++ concat chunks <> [] -> token s' = Some (data s ++ concat chunks)) /\
    split s' = eventScannerFunc /\ done s' = done s /\
    err s' = Some EOF /\ data s' = [].
Proof.
  revert s chunks; induction rounds as [|rounds IH];
    intros s chunks Hsp He Hr Hne Hst Hle Hmax Hb Hlen Hrounds; [lia|].
  cbn [scan_loop].
  destruct (offer_waits s Hsp He (hasBoundary_prefix _ _ Hb))
    as (s1 & -> & Hr1 & Hsp1 & Hmax1 & Hbl1 & Hst1 & Hd1 & He1 & Hdn1).
  assert (Hlt : len (data s) < MaxScanTokenSize).
  { unfold len in *. rewrite length_app in Hlen. lia. }
  destruct (refill_makes_room s1 He1) as
      (s2 & -> & Hr2 & Hsp2 & Hmax2 & Hst2 & Hd2 & He2 & Hdn2 & Hroom);
    rewrite ?Hst1, ?Hd1, ?Hbl1, ?Hmax1; auto.
  rewrite Hd1 in Hroom, Hd2. rewrite Hr1 in Hr2. rewrite Hsp1 in Hsp2.
  rewrite Hmax1 in Hmax2. rewrite Hdn1 in Hdn2.
  destruct (fill_chunks maxConsecutiveEmptyReads s2 chunks He2)
    as (Hsp3 & Hmax3 & Hdn3 & Hst3 & Hle3 & chunks' & Hr3 & Hne3 & Hbytes & Hend);
    [congruence | exact Hne | exact Hst2 | rewrite Hd2; exact Hroom |].
  set (s3 := fill (S maxConsecutiveEmptyReads) s2) in *.
  rewrite Hd2 in Hbytes.
  destruct Hend as [(-> & -> & He3)|[He3 Hw]].
  - (* the source is at its end *)
    destruct rounds as [|rounds]; [unfold weight in Hrounds; simpl in Hrounds; lia|].
    simpl concat in *. rewrite app_nil_r in *.
    assert (Hsp3' : split s3 = eventScannerFunc) by congruence.
    assert (Hd3 : data s3 = data s) by (now rewrite ?app_nil_r in Hbytes).
    destruct (data s) as [|c d] eqn:Ed.
    + destruct (scan_loop_exhausted rounds s3 EOF Hsp3' He3 Hd3)
        as (s' & -> & He' & Hsp' & Hdn' & Hd').
      exists s'. repeat split; auto; congruence.
    + destruct (scan_loop_final_frame rounds s3 EOF Hsp3' He3)
        as (s' & -> & Ht & Hsp' & Hdn' & He' & Hd'); [rewrite Hd3; discriminate|].
      exists s'. rewrite Hd3 in Ht. repeat split; auto; congruence.
  - (* the source has handed over some bytes *)
    assert (Hsp3' : split s3 = eventScannerFunc) by congruence.
    destruct (IH s3 chunks' Hsp3' He3 Hr3 Hne3 Hst3 Hle3) as (s' & Hs' & Ht & Hrest);
      [congruence | now rewrite Hbytes | now rewrite Hbytes | lia |].
    exists s'. rewrite Hbytes in Hs', Ht. rewrite Hdn3, Hdn2 in Hrest.
    split; [exact Hs' | split; [exact Ht | exact Hrest]].
Qed.

Lemma segment_whole (chunks : list bytes) :
  Forall (fun c => c <> []) chunks ->
  hasBoundary (concat chunks) = false ->
  len (concat chunks) < MaxScanTokenSize ->
  segment (ofChunks chunks) =
  FramesThen (match concat chunks with [] => [] | _ => [concat chunks] end) EOF.
Proof.
  intros Hne Hb Hlen. unfold segment. rewrite pending_ofChunks.
  replace (length (concat chunks) + 2)%nat with (S (S (length (concat chunks)))) by lia.
  rewrite scanEvents_S.
  set (s0 := newEventScanner (ofChunks chunks)).
  assert (HS : bufio.Scan s0 = scan_loop (rounds_for s0) s0) by reflexivity.
  destruct (scan_loop_whole (rounds_for s0) s0 chunks eq_refl eq_refl eq_refl Hne eq_refl)
    as (s' & Hs' & Ht & Hsp' & Hdn' & He' & Hd');
    [unfold len; simpl; lia | reflexivity | exact Hb | exact Hlen | apply Nat.le_refl |].
  rewrite <- HS in Hs'. simpl app in Hs', Ht.
  destruct (concat chunks) as [|c d] eqn:Ec.
  - now rewrite (scanEvent_error s0 s' EOF Hs' He').
  - rewrite (scanEvent_frame s0 s' (c :: d) Hs' (Ht ltac:(discriminate))).
    simpl length.
    rewrite (scanEvents_exhausted (length d) s' EOF Hsp' Hdn' He'), Hd'. reflexivity.
Qed.

(** C6.  At the end of the stream the split function returns a non-empty
    remainder whole and returns nothing for an empty one; a scanner whose
    source is exhausted therefore yields the buffered remainder once,
    and then ends.  Before the end a buffer without a boundary yields no
    frame.  So a stream without a boundary gives one frame at most, made
    of the bytes read until the source reported its end; and when such a
    stream arrives in non-empty chunks and is shorter than the largest
    token, that frame is the whole stream. *)
Theorem segmenter_final_remainder :
  (forall data : bytes,
      data <> [] ->
      eventScannerFunc data true = (len data, Some data, None)) /\
  eventScannerFunc [] true = (0, None, None) /\
  (forall (scanner : eventScanner) (e : error) (calls : nat),
      split scanner = eventScannerFunc -> done scanner = false ->
      err scanner = Some e ->
      scanEvents (S (S calls)) scanner =
      FramesThen (match data scanner with [] => [] | _ => [data scanner] end) e) /\
  (forall data : bytes,
      hasBoundary data = false ->
      eventScannerFunc data false = (0, None, None)) /\
  (forall body : Reader,
      hasBoundary (pending body) = false ->
      exists fs e,
        segment body = FramesThen fs e /\
        (fs = [] \/
         exists f rest, fs = [f] /\ f <> [] /\ pending body = f ++ rest)) /\
  (forall chunks : list bytes,
      Forall (fun c => c <> []) chunks ->
      hasBoundary (concat chunks) = false ->
      len (concat chunks) < MaxScanTokenSize ->
      segment (ofChunks chunks) =
      FramesThen (match concat chunks with [] => [] | _ => [concat chunks] end) EOF).
Proof.
  split; [exact eventScannerFunc_atEOF|].
  split; [exact eventScannerFunc_atEOF_nil|].
  split; [intros scanner e calls; apply scanEvents_exhausted|].
  split; [exact eventScannerFunc_waits|].
  split; [exact segment_no_boundary | exact segment_whole].
Qed.

Lemma segmenter_final_remainder_witness :
  segment (ofChunks [lit "da"; lit "ta: x\n"; lit "id: 1"]) =
  FramesThen [lit "data: x\nid: 1"] EOF.
Proof.
  apply (proj2 (proj2 (proj2 (proj2 (proj2 segmenter_final_remainder))))
           [lit "da"; lit "ta: x\n"; lit "id: 1"]).
  - repeat constructor; discriminate.
  - reflexivity.
  - reflexivity.
Defined.

End ScannerFacts.

(** * The loop bounds of the model are never reached *)

Section Termination.
Import io bufio.

Local Arguments fill : simpl never.

(** What the first half of a round may do, for any split function. *)
Lemma offer_cases (s : Scanner) :
  (exists ok s', offer s = inl (Scanned ok s')) \/
  offer s = inl ScanPanic \/
  (exists s1, offer s = inr s1 /\ r s1 = r s /\ err s1 = err s).
Proof.
  unfold offer.
  destruct ((0 <? len (data s)) || notNil (err s)); [|right; right; exists s; auto].
  destruct (split s (data s) (notNil (err s))) as [[adv tok] e].
  destruct e as [e|].
  - left. destruct e; eauto.
  - unfold advance.
    destruct (adv <? 0); [left; eauto|].
    destruct (len (data s) <? adv); [left; eauto|].
    destruct tok; simpl.
    + destruct (negb (notNil (err s)) || (0 <? adv)); [left; eauto|].
      destruct (maxConsecutiveEmptyReads <? S (empties s))%nat;
        [right; left; reflexivity | left; eauto].
    + right; right; eexists; split; [reflexivity|]; simpl; auto.
Qed.

(** [rounds_for] rounds are enough for [Scan], whatever the split function
    and the source. *)
Lemma scan_loop_finishes (rounds : nat) (s : Scanner) :
  (match err s with None => weight (r s) + 2 | Some _ => 1 end <= rounds)%nat ->
  scan_loop rounds s <> ScanUnfinished.
Proof.
  revert s; induction rounds as [|rounds IH]; intros s H.
  - destruct (err s); lia.
  - cbn [scan_loop].
    destruct (offer_cases s) as [(ok & s' & ->)|[->|(s1 & -> & Hr & He)]];
      try discriminate.
    destruct (err s1) as [e1|] eqn:E1.
    + unfold refill; rewrite E1; discriminate.
    + destruct (refill_spec s1 E1) as [(s2 & -> & _)|(s2 & -> & _ & _ & _ & Hprog)];
        [discriminate|].
      apply IH. rewrite <- He in H. rewrite Hr in Hprog.
      destruct (err s2); [lia|]. destruct Hprog; [congruence | lia].
Qed.

Lemma Scan_finishes (s : Scanner) : bufio.Scan s <> ScanUnfinished.
Proof.
  unfold bufio.Scan. destruct (done s); [discriminate|].
  apply scan_loop_finishes. unfold rounds_for. destruct (err s); lia.
Qed.

(** The case of [offer] in which the split function has found a boundary:
    [Hb] bounds the offset found. *)
Ltac frame_found Hb :=
  let Hneg := fresh "Hneg" in
  let Hfar := fresh "Hfar" in
  simpl length in Hb; unfold advance; cbn [data];
  case_ltb Hneg; [lia|];
  case_ltb Hfar; [unfold len in *; lia|];
  cbn [err notNil negb orb];
  eexists; split; [reflexivity|]; cbn [split data err r done];
  repeat split; auto; rewrite length_skipn; unfold len in *; lia.

(** With [eventScannerFunc] the first half of a round hands out a frame
    and shortens the buffer, or passes the buffer on as it is. *)
Lemma offer_eventScanner (s : Scanner) :
  split s = eventScannerFunc ->
  (exists s', offer s = inl (Scanned true s') /\ split s' = split s /\
              done s' = done s /\ r s' = r s /\
              (length (data s') < length (data s))%nat) \/
  (exists s1, offer s = inr s1 /\ split s1 = split s /\ done s1 = done s /\
              r s1 = r s /\ err s1 = err s /\ data s1 = data s).
Proof.
  destruct s as [rd sp mts tok bl st d e em dn]; cbn [split data err r done].
  intros ->. unfold offer, eventScannerFunc; cbn [split data err r done notNil].
  destruct e as [e|]; cbn [notNil andb orb negb].
  - (* at the end of the stream *)
    rewrite orb_true_r.
    destruct (Z.eqb_spec (len d) 0) as [E0|E0].
    + right. unfold advance; cbn [data]. rewrite E0; simpl.
      eexists; split; [reflexivity|]. simpl. repeat split; auto.
    + left. unfold advance; cbn [data].
      assert (0 < len d) by (unfold len in *; lia).
      destruct (Z.ltb_spec (len d) 0) as [|_]; [lia|].
      rewrite Z.ltb_irrefl. cbn [err notNil negb orb].
      destruct (Z.ltb_spec 0 (len d)) as [_|]; [|lia].
      eexists; split; [reflexivity|]. cbn [split data err r done]. repeat split; auto.
      unfold len; rewrite Nat2Z.id, skipn_all; simpl.
      unfold len in *; lia.
  - (* before the end: the three patterns in turn *)
    rewrite orb_false_r.
    destruct (Z.ltb_spec 0 (len d)) as [Hpos|Hzero];
      [|right; eexists; split; [reflexivity|]; repeat split; auto].
    destruct (Z.leb_spec 0 (Index d (lit "\r\n\r\n"))) as [H1|H1];
      [left; pose proof (Index_bound _ _ H1) as Hb; frame_found Hb|].
    destruct (Z.leb_spec 0 (Index d (lit "\n\n"))) as [H2|H2];
      [left; pose proof (Index_bound _ _ H2) as Hb; frame_found Hb|].
    destruct (Z.leb_spec 0 (Index d (lit "\r\r"))) as [H3|H3];
      [left; pose proof (Index_bound _ _ H3) as Hb; frame_found Hb|].
    right. unfold advance; cbn [data].
    destruct (Z.ltb_spec (len d) 0) as [Hneg|_]; [unfold len in Hneg; lia|].
    eexists; split; [reflexivity|]. simpl. repeat split; auto.
Qed.

(** A scan with [eventScannerFunc] does not panic, and a frame takes at
    least one byte off what remains of the stream. *)
Lemma scan_loop_frame (rounds : nat) (s : Scanner) :
  split s = eventScannerFunc ->
  match scan_loop rounds s with
  | Scanned true s' =>
      split s' = eventScannerFunc /\ done s' = done s /\
      (length (data s' ++ pending (r s')) < length (data s ++ pending (r s)))%nat
  | ScanPanic => False
  | _ => True
  end.
Proof.
  revert s; induction rounds as [|rounds IH]; intros s Hsp; [exact I|].
  cbn [scan_loop].
  destruct (offer_eventScanner s Hsp)
    as [(s' & -> & Hsp' & Hdn' & Hr' & Hlt)|(s1 & -> & Hsp1 & Hdn1 & Hr1 & He1 & Hd1)].
  - rewrite Hr', !length_app. repeat split; [congruence | exact Hdn' | lia].
  - destruct (err s1) as [e1|] eqn:E1.
    + unfold refill; rewrite E1. exact I.
    + destruct (refill_spec s1 E1)
        as [(s2 & -> & _)|(s2 & -> & Hsp2 & Hdn2 & Hbytes & _)]; [exact I|].
      assert (Hsp2' : split s2 = eventScannerFunc) by congruence.
      specialize (IH s2 Hsp2').
      destruct (scan_loop rounds s2) as [[|] s'| |]; auto.
      destruct IH as (H1 & H2 & H3).
      rewrite Hbytes, Hd1, Hr1 in H3. repeat split; [exact H1 | congruence | exact H3].
Qed.

(** One call of [scanEvent] for each byte of the stream, and one more,
    reach the error that ends the sequence of frames. *)
Lemma scanEvents_finishes (calls : nat) (s : Scanner) :
  split s = eventScannerFunc -> done s = false ->
  (length (data s ++ pending (r s)) + 1 <= calls)%nat ->
  exists fs e, scanEvents calls s = FramesThen fs e.
Proof.
  revert s; induction calls as [|calls IH]; intros s Hsp Hdn Hc; [lia|].
  rewrite scanEvents_S. unfold scanEvent.
  pose proof (Scan_finishes s) as Hfin.
  pose proof (scan_loop_frame (rounds_for s) s Hsp) as Hfr.
  unfold bufio.Scan in *. rewrite Hdn in *.
  destruct (scan_loop (rounds_for s) s) as [[|] s'| |]; [| |contradiction|congruence].
  - destruct Hfr as (Hsp' & Hdn' & Hlt).
    destruct (IH s' Hsp') as (fs & e & ->); [congruence | lia |].
    simpl. eauto.
  - destruct (Err s'); eauto.
Qed.

Lemma segment_finishes (body : Reader) :
  exists fs e, segment body = FramesThen fs e.
Proof.
  apply scanEvents_finishes; [reflexivity | reflexivity | simpl; lia].
Qed.

Lemma scanEvent_returns (body : Reader) :
  (exists f s', scanEvent (newEventScanner body) = Frame f s') \/
  (exists e s', scanEvent (newEventScanner body) = ScanError e s').
Proof.
  unfold scanEvent.
  pose proof (Scan_finishes (newEventScanner body)) as Hfin.
  pose proof (scan_loop_frame (rounds_for (newEventScanner body)) (newEventScanner body)
                eq_refl) as Hfr.
  change (bufio.Scan (newEventScanner body))
    with (scan_loop (rounds_for (newEventScanner body)) (newEventScanner body)) in *.
  destruct (scan_loop (rounds_for (newEventScanner body)) (newEventScanner body))
    as [[|] s'| |]; [| |contradiction|congruence].
  - left; eauto.
  - right. destruct (Err s'); eauto.
Qed.

End Termination.

Section SegmenterExamples.
Import io.

(** [cuttings] lists every delivery of a stream in non-empty chunks. *)
Lemma cuttings_complete (chunks : list bytes) :
  Forall (fun c => c <> []) chunks -> In chunks (cuttings (concat chunks)).
Proof.
  induction 1 as [|c chunks Hc _ IH]; [now left|].
  destruct c as [|x c]; [congruence|]. clear Hc.
  revert x; induction c as [|y c IHc]; intros x.
  - simpl. apply in_flat_map. exists chunks; split; [exact IH|].
    destruct chunks; [now left | now left].
  - change (concat ((x :: y :: c) :: chunks))
      with (x :: concat ((y :: c) :: chunks)).
    cbn [cuttings]. apply in_flat_map.
    exists ((y :: c) :: chunks); split; [apply IHc|]. right; now left.
Qed.

(** C2, as the code has it.  Each of the three streams gives two frames,
    the first being [a]; the advance goes one byte past the first frame,
    so the second frame begins with the rest of the boundary: it is
    [\n\r\nb], [\nb] and [\rb].  This holds however the stream is cut into
    the non-empty chunks in which it arrives before the source reports its
    end, and the decoder, which drops empty lines, reads each second frame
    as it reads [b]. *)
Theorem segment_two_frames :
  (forall chunks : list bytes,
      Forall (fun c => c <> []) chunks ->
      (concat chunks = lit "a\r\n\r\nb" ->
       segment (ofChunks chunks) = FramesThen [lit "a"; lit "\n\r\nb"] EOF) /\
      (concat chunks = lit "a\n\nb" ->
       segment (ofChunks chunks) = FramesThen [lit "a"; lit "\nb"] EOF) /\
      (concat chunks = lit "a\r\rb" ->
       segment (ofChunks chunks) = FramesThen [lit "a"; lit "\rb"] EOF)) /\
  (eventScannerFunc (lit "a\r\n\r\nb") false = (2, Some (lit "a"), None) /\
   eventScannerFunc (lit "a\n\nb") false = (2, Some (lit "a"), None) /\
   eventScannerFunc (lit "a\r\rb") false = (2, Some (lit "a"), None)) /\
  (readEvent (lit "\n\r\nb") = readEvent (lit "b") /\
   readEvent (lit "\nb") = readEvent (lit "b") /\
   readEvent (lit "\rb") = readEvent (lit "b")).
Proof.
  split; [|repeat split; vm_compute; reflexivity].
  assert (Hall : forall input frames,
             Forall (fun chunks => segment (ofChunks chunks) = frames) (cuttings input) ->
             forall chunks, Forall (fun c => c <> []) chunks ->
                            concat chunks = input ->
                            segment (ofChunks chunks) = frames).
  { intros input frames Hf chunks Hne <-.
    exact (proj1 (Forall_forall _ _) Hf chunks (cuttings_complete chunks Hne)). }
  intros chunks Hne. repeat split; apply Hall; try exact Hne;
    match goal with |- Forall _ ?l =>
      let l' := eval vm_compute in l in change l with l' end;
    repeat (constructor; [vm_compute; reflexivity|]); constructor.
Qed.

Lemma segment_two_frames_witness :
  segment (ofChunks [lit "a\r"; lit "\n\r\n"; lit "b"])
  = FramesThen [lit "a"; lit "\n\r\nb"] EOF.
Proof.
  apply (proj1 (proj1 segment_two_frames [lit "a\r"; lit "\n\r\n"; lit "b"]
                  ltac:(repeat constructor; discriminate))).
  reflexivity.
Defined.

(** C2 as it is stated fails: in none of the three cases is the second
    frame [b]. *)
Lemma segment_second_frame_is_not_b :
  ~ (exists e, segment (ofChunks [lit "a\r\n\r\nb"]) = FramesThen [lit "a"; lit "b"] e) /\
  ~ (exists e, segment (ofChunks [lit "a\n\nb"]) = FramesThen [lit "a"; lit "b"] e) /\
  ~ (exists e, segment (ofChunks [lit "a\r\rb"]) = FramesThen [lit "a"; lit "b"] e).
Proof.
  repeat split; intros [e H]; vm_compute in H; discriminate.
Qed.

(** C3, at the input on which the code departs from it.  In the buffer
    [a\n\nb\r\n\r\nc] an LF LF stands at offset 1 and a CRLF CRLF at
    offset 4; the split function looks for CRLF CRLF first and cuts
    there, so the frame is [a\n\nb] and not [a].  The same stream gives
    other frames when the CRLF CRLF arrives in a later chunk. *)
Theorem eventScannerFunc_crlf_pair_first :
  Index (lit "a\n\nb\r\n\r\nc") (lit "\n\n") = 1 /\
  Index (lit "a\n\nb\r\n\r\nc") (lit "\r\n\r\n") = 4 /\
  eventScannerFunc (lit "a\n\nb\r\n\r\nc") false = (5, Some (lit "a\n\nb"), None) /\
  segment (ofChunks [lit "a\n\nb\r\n\r\nc"])
    = FramesThen [lit "a\n\nb"; lit "\n\r\nc"] EOF /\
  segment (ofChunks [lit "a\n\nb"; lit "\r\n\r\nc"])
    = FramesThen [lit "a"; lit "\nb"; lit "\n\r\nc"] EOF.
Proof.
  repeat split; vm_compute; reflexivity.
Qed.

End SegmenterExamples.

(** * The stream session *)

Section Session.
Import io.

Lemma sentEvents_app (t u : list effect) :
  sentEvents (t ++ u) = sentEvents t ++ sentEvents u.
Proof. unfold sentEvents; now rewrite flat_map_app. Qed.

Lemma sentErrors_app (t u : list effect) :
  sentErrors (t ++ u) = sentErrors t ++ sentErrors u.
Proof. unfold sentErrors; now rewrite flat_map_app. Qed.

Lemma bodyCloses_app (t u : list effect) :
  bodyCloses (t ++ u) = (bodyCloses t + bodyCloses u)%nat.
Proof. unfold bodyCloses; now rewrite filter_app, length_app. Qed.

(** A select whose only case cannot proceed and that has no default case
    blocks; it never falls through. *)
Lemma select_one (ready : bool) :
  select [ready] false = if ready then CaseTaken 0 else Blocks.
Proof. now destruct ready. Qed.

(** The decoder does not panic. *)
Lemma readEvent_no_panic (data : bytes) : readEvent data <> DecodePanic.
Proof.
  destruct data as [|c data]; [discriminate|].
  destruct (readEvent_nonempty c data) as [event ->]; discriminate.
Qed.

(** One round of the loop: what is sent, and how the round ends. *)
Lemma streamLoop_S (rounds : nat) (stop : nat -> bool) (k : nat)
      (scanner : eventScanner) :
  streamLoop (S rounds) stop k scanner =
  match scanEvent scanner with
  | ScanError err _ =>
      if error_eqb err EOF
      then ([SendError ErrStreamIsClosed], Returned ExitStreamClosed)
      else ([SendError err], Returned ExitScanError)
  | ScanEventPanic => ([], Panicked)
  | ScanEventUnfinished => ([], Unfinished)
  | Frame eventBytes _ =>
      (match readEvent eventBytes with
       | Decoded event => [SendEvent event]
       | _ => []
       end,
       if stop k then Returned ExitStopped else BlockedOnStop)
  end.
Proof.
  cbn [streamLoop].
  destruct (scanEvent scanner) as [eventBytes scanner'|err scanner'| |]; try reflexivity.
  pose proof (readEvent_no_panic eventBytes) as Hp.
  rewrite select_one.
  destruct (readEvent eventBytes); [| |congruence]; now destruct (stop k).
Qed.

(** What a session has done when it ends or blocks. *)
Lemma streamLoop_shape (rounds : nat) (stop : nat -> bool) (k : nat)
      (scanner : eventScanner) :
  let '(t, e) := streamLoop rounds stop k scanner in
  bodyCloses t = 0%nat /\
  (length (sentEvents t) <= 1)%nat /\
  (length (sentErrors t) <= 1)%nat /\
  e <> Returned ExitDoError /\ e <> Returned ExitStatus.
Proof.
  destruct rounds as [|rounds]; [simpl; repeat split; auto; discriminate|].
  rewrite streamLoop_S.
  destruct (scanEvent scanner) as [eventBytes scanner'|err scanner'| |];
    try (simpl; repeat split; auto; discriminate).
  - destruct (readEvent eventBytes), (stop k); simpl; repeat split; auto; discriminate.
  - destruct (error_eqb err EOF); simpl; repeat split; auto; discriminate.
Qed.

Lemma closing_sends_nothing (c : Client) (ch : chan) :
  let '(t, _) := closeRespAndCurrStreamCh c None ch in
  bodyCloses t = 0%nat /\ sentEvents t = [] /\ sentErrors t = [].
Proof.
  unfold closeRespAndCurrStreamCh.
  destruct (lookup (currentlyStreaming c) ch); simpl; auto.
Qed.

(** The session as a whole: the goroutine decides how it ends and what is
    sent; the deferred call adds no message and closes no body. *)
Lemma Stream_outcome (c : Client) (req : Request) (stop : nat -> bool) :
  outcome (Stream c req stop) = snd (streamBody c req stop) /\
  sentEvents (trace (Stream c req stop)) = sentEvents (fst (streamBody c req stop)) /\
  sentErrors (trace (Stream c req stop)) = sentErrors (fst (streamBody c req stop)) /\
  bodyCloses (trace (Stream c req stop)) = bodyCloses (fst (streamBody c req stop)).
Proof.
  unfold Stream.
  match goal with |- context [streamBody ?c1 req stop] =>
    change (streamBody c1 req stop) with (streamBody c req stop);
    pose proof (closing_sends_nothing c1 (fresh (currentlyStreaming c))) as Hc
  end.
  destruct (streamBody c req stop) as [effects e].
  match type of Hc with context [closeRespAndCurrStreamCh ?c1 None ?ch] =>
    destruct (closeRespAndCurrStreamCh c1 None ch) as [closing c2] end.
  destruct Hc as (Hb & Hev & Her).
  destruct e as [path| | |]; simpl;
    rewrite ?sentEvents_app, ?sentErrors_app, ?bodyCloses_app, ?Hb, ?Hev, ?Her,
      ?app_nil_r, ?Nat.add_0_r; auto.
Qed.

(** C9, as the code has it.  The session ends before it reads the body
    exactly when the collaborator fails or the status code is not 200;
    it has then sent one error and no event.  Every status code but 200
    is refused, the success codes 201 and 204 as well as 404. *)
Theorem Stream_refuses_all_but_200 :
  (forall (c : Client) (req : Request) (stop : nat -> bool),
      (outcome (Stream c req stop) = Returned ExitDoError <->
       exists err, HTTPClient c req = inr err) /\
      (outcome (Stream c req stop) = Returned ExitStatus <->
       exists resp, HTTPClient c req = inl resp /\ StatusCode resp <> 200) /\
      (outcome (Stream c req stop) = Returned ExitDoError \/
       outcome (Stream c req stop) = Returned ExitStatus ->
       sentEvents (trace (Stream c req stop)) = [] /\
       exists err, sentErrors (trace (Stream c req stop)) = [err])) /\
  (forall (code : Z) (body : Reader) (stop : nat -> bool),
      code <> 200 ->
      outcome (Stream (NewClient (answering code body)) 0%nat stop) = Returned ExitStatus /\
      sentErrors (trace (Stream (NewClient (answering code body)) 0%nat stop)) = [ErrNon200] /\
      sentEvents (trace (Stream (NewClient (answering code body)) 0%nat stop)) = []).
Proof.
  assert (Hgen : forall c req stop,
             match HTTPClient c req with
             | inr err => streamBody c req stop = ([SendError err], Returned ExitDoError)
             | inl resp =>
                 (StatusCode resp <> 200 /\
                  streamBody c req stop = ([SendError ErrNon200], Returned ExitStatus)) \/
                 (StatusCode resp = 200 /\
                  snd (streamBody c req stop) <> Returned ExitDoError /\
                  snd (streamBody c req stop) <> Returned ExitStatus)
             end).
  { intros c req stop. unfold streamBody.
    destruct (HTTPClient c req) as [resp|err]; [|reflexivity].
    destruct (Z.eqb_spec (StatusCode resp) 200) as [E|E]; simpl; [right | left; auto].
    split; [exact E|].
    match goal with |- context [streamLoop ?n ?s ?k ?sc] =>
      pose proof (streamLoop_shape n s k sc) as H;
      destruct (streamLoop n s k sc) as [t e] end.
    simpl; tauto. }
  split.
  - intros c req stop.
    destruct (Stream_outcome c req stop) as (-> & -> & -> & _).
    specialize (Hgen c req stop).
    destruct (HTTPClient c req) as [resp|err].
    + destruct Hgen as [[Hne ->]|(He & H1 & H2)]; simpl.
      * split; [split; [discriminate | intros [err [=]]]|].
        split; [split; [intros _; exists resp; auto | reflexivity]|].
        intros _; split; [reflexivity | eauto].
      * split; [split; [intros H; contradiction | intros [err [=]]]|].
        split; [split; [intros H; contradiction
                       | intros [resp' [[= <-] Hne]]; contradiction]|].
        intros [H|H]; contradiction.
    + rewrite Hgen; simpl.
      split; [split; [intros _; eauto | reflexivity]|].
      split; [split; [discriminate | intros [resp [[=] _]]]|].
      intros _; split; [reflexivity | eauto].
  - intros code body stop Hne.
    destruct (Stream_outcome (NewClient (answering code body)) 0%nat stop)
      as (-> & -> & -> & _).
    specialize (Hgen (NewClient (answering code body)) 0%nat stop). simpl in Hgen.
    destruct Hgen as [[_ ->]|[E _]]; [auto | congruence].
Qed.

Lemma Stream_refuses_all_but_200_witness :
  outcome (Stream (NewClient (answering 404 (ofChunks [lit "data: x\n\n"]))) 0%nat noStop)
    = Returned ExitStatus /\
  sentErrors (trace (Stream (NewClient (answering 404 (ofChunks [lit "data: x\n\n"]))) 0%nat noStop))
    = [ErrNon200] /\
  sentEvents (trace (Stream (NewClient (answering 404 (ofChunks [lit "data: x\n\n"]))) 0%nat noStop))
    = [].
Proof.
  apply (proj2 Stream_refuses_all_but_200 404 (ofChunks [lit "data: x\n\n"]) noStop).
  discriminate.
Defined.

(** C9 as it is stated fails: 201 and 204 are success codes, and the
    session ends on them as on any status error. *)
Lemma Stream_201_is_a_status_error :
  (200 <= 201 < 300 /\
   ~ outcome (Stream (NewClient (answering 201 (ofChunks [lit "data: x\n\n"]))) 0%nat noStop)
     <> Returned ExitStatus) /\
  (200 <= 204 < 300 /\
   ~ outcome (Stream (NewClient (answering 204 (ofChunks []))) 0%nat noStop)
     <> Returned ExitStatus).
Proof.
  repeat split; try lia; intros H; apply H; reflexivity.
Qed.

(** C8, at the inputs on which the code departs from it.  The teardown
    closes the body of the response it is given, once; but the deferred
    call was given the nil response that [resp] held when the [defer]
    statement ran, so no session ever closes a body: not the session that
    is refused for its status, nor the one that reads its stream to the
    end, nor the one that is stopped. *)
Theorem Stream_never_closes_body :
  (forall (c : Client) (resp : Response) (ch : chan),
      bodyCloses (fst (closeRespAndCurrStreamCh c (Some resp) ch)) = 1%nat) /\
  (forall (c : Client) (req : Request) (stop : nat -> bool),
      bodyCloses (trace (Stream c req stop)) = 0%nat) /\
  trace (Stream (NewClient (answering 404 (ofChunks []))) 0%nat noStop)
    = [SendError ErrNon200; CloseStop 2%nat] /\
  trace (Stream (NewClient (answering 200 (ofChunks []))) 0%nat noStop)
    = [SendError ErrStreamIsClosed; CloseStop 2%nat] /\
  trace (Stream (NewClient (answering 200 (ofChunks [lit "data: a\n\n"]))) 0%nat
           (fun _ => true))
    = [SendEvent {| LastEventID := EmptyString; Type_ := EmptyString; Data := lit "a" |};
       CloseStop 2%nat].
Proof.
  split; [|split; [|repeat split; vm_compute; reflexivity]].
  - intros c resp ch. unfold closeRespAndCurrStreamCh.
    now destruct (lookup (currentlyStreaming c) ch).
  - intros c req stop.
    destruct (Stream_outcome c req stop) as (_ & _ & _ & ->).
    unfold streamBody.
    destruct (HTTPClient c req) as [resp|err]; [|reflexivity].
    destruct (negb (StatusCode resp =? 200)); [reflexivity|].
    match goal with |- context [streamLoop ?n ?s ?k ?sc] =>
      pose proof (streamLoop_shape n s k sc) as H;
      destruct (streamLoop n s k sc) as [t e] end.
    simpl; tauto.
Qed.

(** C7, at the inputs on which the code departs from it.  The select
    after each frame has one case and no default: when no stop request is
    pending it blocks, and the session stays there.  So a session that
    has got a frame and is not stopped never asks for the next one, and
    no session sends more than one event.  On a stream of two events the
    first is sent and the second, which the segmenter would yield, is
    never read. *)
Theorem Stream_blocks_at_stop_check :
  select [false] false = Blocks /\
  (forall (rounds : nat) (stop : nat -> bool) (k : nat)
          (scanner scanner' : eventScanner) (eventBytes : bytes),
      scanEvent scanner = Frame eventBytes scanner' ->
      stop k = false ->
      snd (streamLoop (S rounds) stop k scanner) = BlockedOnStop) /\
  (forall (c : Client) (req : Request) (stop : nat -> bool),
      (length (sentEvents (trace (Stream c req stop))) <= 1)%nat) /\
  trace (Stream (NewClient (answering 200 (ofChunks [lit "data: a\n\ndata: b\n\n"])))
           0%nat noStop)
    = [SendEvent {| LastEventID := EmptyString; Type_ := EmptyString; Data := lit "a" |}] /\
  outcome (Stream (NewClient (answering 200 (ofChunks [lit "data: a\n\ndata: b\n\n"])))
             0%nat noStop)
    = BlockedOnStop /\
  segment (ofChunks [lit "data: a\n\ndata: b\n\n"])
    = FramesThen [lit "data: a"; lit "\ndata: b"; lit "\n"] EOF.
Proof.
  split; [reflexivity|].
  split; [|split; [|repeat split; vm_compute; reflexivity]].
  - intros rounds stop k scanner scanner' eventBytes Hf Hs.
    now rewrite streamLoop_S, Hf, Hs.
  - intros c req stop.
    destruct (Stream_outcome c req stop) as (_ & -> & _ & _).
    unfold streamBody.
    destruct (HTTPClient c req) as [resp|err]; [|simpl; lia].
    destruct (negb (StatusCode resp =? 200)); [simpl; lia|].
    match goal with |- context [streamLoop ?n ?s ?k ?sc] =>
      pose proof (streamLoop_shape n s k sc) as H;
      destruct (streamLoop n s k sc) as [t e] end.
    simpl; tauto.
Qed.

Lemma Stream_blocks_at_stop_check_witness :
  snd (streamLoop 1 noStop 0 (newEventScanner (ofChunks [lit "data: a\n\ndata: b\n\n"])))
  = BlockedOnStop.
Proof.
  eapply (proj1 (proj2 Stream_blocks_at_stop_check) 0%nat noStop 0%nat
            (newEventScanner (ofChunks [lit "data: a\n\ndata: b\n\n"]))).
  - vm_compute. reflexivity.
  - reflexivity.
Defined.

(** A collaborator that fails: its error is the one value sent, and the
    stop channel is closed and forgotten. *)
Example Stream_transport_error :
  trace (Stream (NewClient (failing (ErrOther 7))) 0%nat noStop)
    = [SendError (ErrOther 7); CloseStop 2%nat] /\
  currentlyStreaming (after (Stream (NewClient (failing (ErrOther 7))) 0%nat noStop)) = [].
Proof. split; reflexivity. Qed.

(** [StopStream] for a session that has ended finds no stop channel and
    sends nothing. *)
Example StopStream_after_the_end :
  StopStream (after (Stream (NewClient (answering 200 (ofChunks []))) 0%nat noStop))
             (eventch (Stream (NewClient (answering 200 (ofChunks []))) 0%nat noStop))
  = None.
Proof. reflexivity. Qed.

(** Every session returns along one of its exit paths or blocks at its
    stop check: the goroutine does not panic, and the loop bound of the
    model is not reached. *)
Lemma Stream_ends (c : Client) (req : Request) (stop : nat -> bool) :
  (exists path, outcome (Stream c req stop) = Returned path) \/
  outcome (Stream c req stop) = BlockedOnStop.
Proof.
  destruct (Stream_outcome c req stop) as (-> & _).
  unfold streamBody.
  destruct (HTTPClient c req) as [resp|err]; [|left; simpl; eauto].
  destruct (negb (StatusCode resp =? 200)); [left; simpl; eauto|].
  replace (length (pending (Body resp)) + 2)%nat
    with (S (S (length (pending (Body resp))))) by lia.
  rewrite streamLoop_S.
  destruct (scanEvent_returns (Body resp)) as [(f & s' & ->)|(e & s' & ->)].
  - destruct (stop 0%nat); simpl; eauto.
  - destruct (error_eqb e EOF); simpl; eauto.
Qed.

End Session.

(** * More about the [bytes] package: one-byte separators *)

Section SingleByteSeparator.

Variable c : byte.

(** [Index] with a one-byte separator finds the first [c]. *)
Lemma Index_single_spec (s : bytes) :
  (Index s [c] = -1 /\ ~ In c s) \/
  (exists a rest, s = a ++ c :: rest /\ ~ In c a /\ Index s [c] = Z.of_nat (length a)).
Proof.
  induction s as [|x s IH].
  - left; split; [reflexivity | intros []].
  - rewrite Index_cons. cbn [HasPrefix]. rewrite andb_true_r.
    destruct (Byte.eqb x c) eqn:E.
    + apply byte_eqb_eq in E; subst x.
      right; exists [], s; repeat split; auto.
    + assert (Hx : x <> c) by (intros ->; now rewrite byte_eqb_refl in E).
      destruct IH as [[Hi Hn]|(a & rest & -> & Hn & Hi)].
      * left. rewrite Hi; simpl. split; [reflexivity|]. intros [H|H]; auto.
      * right. exists (x :: a), rest. rewrite Hi.
        destruct (Z.ltb_spec (Z.of_nat (length a)) 0) as [|_]; [lia|].
        repeat split; [|simpl length; lia]. intros [H|H]; auto.
Qed.

Lemma Index_single_found (a rest : bytes) :
  ~ In c a -> Index (a ++ c :: rest) [c] = Z.of_nat (length a).
Proof.
  intros Hn. induction a as [|x a IH]; simpl app.
  - rewrite Index_cons. cbn [HasPrefix]. now rewrite byte_eqb_refl.
  - rewrite Index_cons. cbn [HasPrefix]. rewrite andb_true_r.
    destruct (Byte.eqb x c) eqn:E.
    + apply byte_eqb_eq in E; subst x. destruct Hn; now left.
    + rewrite IH by (intros H; apply Hn; now right).
      destruct (Z.ltb_spec (Z.of_nat (length a)) 0) as [|_]; [lia|].
      simpl length; lia.
Qed.

Lemma Index_single_absent (s : bytes) : ~ In c s <-> Index s [c] < 0.
Proof.
  destruct (Index_single_spec s) as [[Hi Hn]|(a & rest & -> & Hn & Hi)].
  - split; [lia | auto].
  - split; [|lia]. intros H; destruct H. apply in_app_iff; right; now left.
Qed.

Lemma Contains_single (s : bytes) : Contains s [c] = false <-> ~ In c s.
Proof.
  unfold Contains. rewrite Z.leb_gt. symmetry. apply Index_single_absent.
Qed.

Lemma slices_at (a rest : bytes) :
  slice_to (a ++ c :: rest) (Z.of_nat (length a)) = a /\
  slice_from (a ++ c :: rest) (Z.of_nat (length a) + Z.of_nat (length [c])) = rest.
Proof.
  unfold slice_to, slice_from. split.
  - now rewrite Nat2Z.id, firstn_app, firstn_all, Nat.sub_diag, app_nil_r.
  - replace (Z.to_nat (Z.of_nat (length a) + Z.of_nat (length [c])))
      with (length a + 1)%nat by (simpl; lia).
    rewrite skipn_app, skipn_all2 by lia.
    now replace (length a + 1 - length a)%nat with 1%nat by lia.
Qed.

(** Cutting at a one-byte separator: the piece before the first [c], and
    then the pieces of what follows it. *)
Lemma genSplit_single (cuts : nat) (s : bytes) :
  (length s <= cuts)%nat ->
  (~ In c s -> genSplit cuts s [c] = [s]) /\
  (forall a rest, s = a ++ c :: rest -> ~ In c a ->
                  genSplit cuts s [c] = a :: genSplit (pred cuts) rest [c]).
Proof.
  intros Hlen; split.
  - intros Hn. apply Index_single_absent in Hn.
    destruct cuts; simpl; [reflexivity|].
    destruct (Z.ltb_spec (Index s [c]) 0); [reflexivity | lia].
  - intros a rest -> Hn.
    destruct cuts as [|cuts]; [rewrite length_app in Hlen; simpl in Hlen; lia|].
    cbn [genSplit pred]. rewrite (Index_single_found a rest Hn).
    destruct (Z.ltb_spec (Z.of_nat (length a)) 0) as [|_]; [lia|].
    destruct (slices_at a rest) as [-> ->]. reflexivity.
Qed.

(** No piece of [Split] holds the separator. *)
Lemma genSplit_pieces (cuts : nat) (s : bytes) :
  (length s <= cuts)%nat ->
  Forall (fun piece => ~ In c piece) (genSplit cuts s [c]).
Proof.
  revert s; induction cuts as [|cuts IH]; intros s Hlen.
  - destruct s; [|simpl in Hlen; lia]. repeat constructor. intros [].
  - destruct (Index_single_spec s) as [[Hi Hn]|(a & rest & E & Hn & Hi)].
    + rewrite (proj1 (genSplit_single (S cuts) s Hlen) Hn). now repeat constructor.
    + rewrite (proj2 (genSplit_single (S cuts) s Hlen) a rest E Hn).
      constructor; [exact Hn|]. apply IH.
      subst s. rewrite length_app in Hlen. simpl in *. lia.
Qed.

End SingleByteSeparator.

Section Sublists.

Variable P : byte -> Prop.

Lemma Forall_firstn_bytes (n : nat) (s : bytes) : Forall P s -> Forall P (firstn n s).
Proof.
  intros H; revert n; induction H; intros [|n]; simpl; auto.
Qed.

Lemma Forall_skipn_bytes (n : nat) (s : bytes) : Forall P s -> Forall P (skipn n s).
Proof.
  intros H; revert n; induction H; intros [|n]; simpl; auto.
Qed.

(** The pieces of [Split] are made of bytes of [s]. *)
Lemma genSplit_sub (cuts : nat) (s sep : bytes) :
  Forall P s -> Forall (Forall P) (genSplit cuts s sep).
Proof.
  revert s; induction cuts as [|cuts IH]; intros s H; simpl; [auto|].
  destruct (Index s sep <? 0); [auto|].
  constructor; [now apply Forall_firstn_bytes | apply IH, Forall_skipn_bytes, H].
Qed.

(** The fields of [FieldsFunc] are made of bytes of [s] that are not
    separators. *)
Lemma fields_loop_sub (f : byte -> bool) (s : bytes) (open : option bytes) :
  Forall P s ->
  match open with Some cur => Forall P cur /\ Forall (fun b => f b = false) cur
             | None => True end ->
  Forall (fun field => Forall P field /\ Forall (fun b => f b = false) field)
         (fields_loop f open s).
Proof.
  intros H; revert open; induction H as [|x s Hx _ IH]; intros open Ho; simpl.
  - destruct open as [cur|]; simpl; [|constructor].
    repeat constructor; now apply Forall_rev.
  - destruct (f x) eqn:E.
    + apply Forall_app; split; [|now apply IH].
      destruct open as [cur|]; simpl; [|constructor].
      repeat constructor; now apply Forall_rev.
    + destruct open as [cur|]; apply IH; [destruct Ho|]; split; auto.
Qed.

End Sublists.

(** * More about the decoder *)

Section DecoderFields.

Lemma notIn_Forall (c : byte) (s : bytes) : ~ In c s <-> Forall (fun b => b <> c) s.
Proof.
  rewrite Forall_forall; split.
  - intros H b Hb ->; auto.
  - intros H Hc; exact (H c Hc eq_refl).
Qed.

(** What the loop body finds on a line, by the colons of the line. *)
Lemma fieldAndValue_bare (line : bytes) :
  ~ In COLON line -> fieldAndValue line = Some (line, []).
Proof.
  intros Hn. unfold fieldAndValue. change (lit ":") with [COLON].
  now rewrite (proj2 (Contains_single COLON line) Hn).
Qed.

Lemma Contains_colon (field rest : bytes) :
  Contains (field ++ COLON :: rest) [COLON] = true.
Proof.
  destruct (Contains (field ++ COLON :: rest) [COLON]) eqn:E; [reflexivity|].
  apply Contains_single in E. destruct E. apply in_app_iff; right; now left.
Qed.

Lemma fieldAndValue_one_colon (field value : bytes) :
  ~ In COLON field -> ~ In COLON value ->
  fieldAndValue (field ++ COLON :: value) = Some (field, TrimPrefix value [SPACE]).
Proof.
  intros Hf Hv. unfold fieldAndValue. change (lit ":") with [COLON].
  rewrite Contains_colon. unfold Split.
  rewrite (proj2 (genSplit_single COLON _ _ (Nat.le_refl _)) field value eq_refl Hf).
  assert (Hlen : (length value <= pred (length (field ++ COLON :: value)))%nat)
    by (rewrite length_app; simpl; lia).
  rewrite (proj1 (genSplit_single COLON _ value Hlen) Hv).
  reflexivity.
Qed.

Lemma fieldAndValue_more_colons (field value rest : bytes) :
  ~ In COLON field -> ~ In COLON value ->
  fieldAndValue (field ++ COLON :: value ++ COLON :: rest)
  = Some (field, TrimPrefix value [SPACE]).
Proof.
  intros Hf Hv. unfold fieldAndValue. change (lit ":") with [COLON].
  rewrite Contains_colon. unfold Split.
  rewrite (proj2 (genSplit_single COLON _ _ (Nat.le_refl _)) field
             (value ++ COLON :: rest) eq_refl Hf).
  assert (Hlen : (length (value ++ COLON :: rest)
                  <= pred (length (field ++ COLON :: value ++ COLON :: rest)))%nat)
    by (rewrite !length_app; simpl; rewrite length_app; simpl; lia).
  rewrite (proj2 (genSplit_single COLON _ (value ++ COLON :: rest) Hlen)
             value rest eq_refl Hv).
  reflexivity.
Qed.

(** X1.  The value of a field is what stands between the first colon of
    the line and the second, less one leading space: on a line with more
    colons, what follows the second colon is dropped.  A line without a
    colon is a field name with the empty value. *)
Theorem fieldAndValue_stops_at_second_colon (field value rest : bytes) :
  ~ In COLON field -> ~ In COLON value ->
  fieldAndValue (field ++ COLON :: value) = Some (field, TrimPrefix value [SPACE]) /\
  fieldAndValue (field ++ COLON :: value ++ COLON :: rest)
    = Some (field, TrimPrefix value [SPACE]) /\
  fieldAndValue field = Some (field, []).
Proof.
  intros Hf Hv. split; [now apply fieldAndValue_one_colon|].
  split; [now apply fieldAndValue_more_colons | now apply fieldAndValue_bare].
Qed.

Lemma fieldAndValue_stops_at_second_colon_witness :
  fieldAndValue (lit "data: http://example.org") = Some (lit "data", lit "http").
Proof.
  assert (Hf : ~ In COLON (lit "data")) by (vm_compute; intuition discriminate).
  assert (Hv : ~ In COLON (lit " http")) by (vm_compute; intuition discriminate).
  pose proof (proj1 (proj2 (fieldAndValue_stops_at_second_colon
                              (lit "data") (lit " http") (lit "//example.org") Hf Hv)))
    as H.
  revert H. vm_compute. exact (fun H => H).
Defined.

End DecoderFields.

Section DecoderResults.

Lemma processLine_event (event : Event) (line value : bytes) :
  isField eventTypeEvent line value ->
  processLine event line =
  Some {| LastEventID := LastEventID event; Type_ := string_of_list_byte value;
          Data := Data event |}.
Proof.
  intros [Hc Hf]; unfold processLine; rewrite Hc, Hf; reflexivity.
Qed.

(** Lines that are not [event] lines leave the event type alone. *)
Lemma processLine_keeps_Type (event event' : Event) (line : bytes) :
  (forall value, ~ isField eventTypeEvent line value) ->
  processLine event line = Some event' ->
  Type_ event' = Type_ event.
Proof.
  unfold processLine, isField; intros Hn.
  destruct (HasPrefix line (lit ":")); [now intros [= <-]|].
  destruct (fieldAndValue line) as [[field value]|]; [|discriminate].
  intros [= <-]; unfold dispatch.
  destruct (Equal field eventTypeEvent) eqn:E.
  - apply Equal_eq in E; subst field. now destruct (Hn value).
  - destruct (Equal field eventTypeData); [reflexivity|].
    destruct (Equal field eventTypeID); [|now destruct (Equal field eventTypeRetry)].
    now destruct (negb (Contains value (lit "\0"))).
Qed.

Lemma processLines_keep_Type (lines : list bytes) (event event' : Event) :
  (forall line, In line lines -> forall value, ~ isField eventTypeEvent line value) ->
  processLines event lines = Some event' ->
  Type_ event' = Type_ event.
Proof.
  revert event; induction lines as [|line lines IH]; intros event Hn; simpl.
  - now intros [= <-].
  - destruct (processLine event line) as [event1|] eqn:E; [|discriminate].
    intros H. rewrite (IH event1); [|intros l Hl; apply Hn; now right | exact H].
    apply (processLine_keeps_Type _ _ line); [apply Hn; now left | exact E].
Qed.

(** X2.  The event type of a frame is the value of its last [event] line:
    an [event] line overwrites the type, and the lines after the last one
    leave it alone. *)
Theorem readEvent_last_event_line_wins
        (frame : bytes) (before after : list bytes) (line value : bytes) :
  FieldsFunc frame isLineEnd = before ++ line :: after ->
  isField eventTypeEvent line value ->
  (forall l, In l after -> forall w, ~ isField eventTypeEvent l w) ->
  exists event, readEvent frame = Decoded event /\
                Type_ event = string_of_list_byte value.
Proof.
  intros Hl Hd Hafter.
  destruct (readEvent_lines frame before after line
              (fun event => {| LastEventID := LastEventID event;
                               Type_ := string_of_list_byte value;
                               Data := Data event |}) Hl)
    as (event0 & event2 & _ & E2 & ->).
  { intros event0; now apply processLine_event. }
  eexists; split; [reflexivity|]. simpl.
  now rewrite (processLines_keep_Type after _ _ Hafter E2).
Qed.

Lemma readEvent_last_event_line_wins_witness :
  exists event,
    readEvent (lit "event: add\ndata: x\nevent:remove\r\nretry: 3") = Decoded event /\
    Type_ event = "remove"%string.
Proof.
  apply (readEvent_last_event_line_wins
           (lit "event: add\ndata: x\nevent:remove\r\nretry: 3")
           [lit "event: add"; lit "data: x"] [lit "retry: 3"]
           (lit "event:remove") (lit "remove")).
  - reflexivity.
  - split; reflexivity.
  - intros l [<-|[]] w [_ H]. vm_compute in H. discriminate.
Defined.

(** What [readEvent] returns for a frame that is not empty. *)
Lemma readEvent_Decoded (frame : bytes) (event : Event) :
  readEvent frame = Decoded event ->
  exists event0,
    processLines emptyEvent (FieldsFunc frame isLineEnd) = Some event0 /\
    event = {| LastEventID := LastEventID event0; Type_ := Type_ event0;
               Data := TrimSuffix (Data event0) (lit "\n") |}.
Proof.
  destruct frame as [|c frame]; [discriminate|].
  rewrite readEvent_cons.
  destruct (processLines emptyEvent (FieldsFunc (c :: frame) isLineEnd)) as [event0|];
    [|discriminate].
  intros [= <-]. now exists event0.
Qed.

(** X3.  Each field of the event keeps its zero value unless a line of the
    frame sets it: no [data] line, empty data; no [event] line, empty
    type; no [id] line with a value free of NUL, empty last event id.
    Comments, [retry] lines and lines with other field names set
    nothing. *)
Theorem readEvent_fields_default (frame : bytes) (event : Event) :
  readEvent frame = Decoded event ->
  ((forall line, In line (FieldsFunc frame isLineEnd) ->
      forall value, ~ isField eventTypeData line value) ->
   Data event = []) /\
  ((forall line, In line (FieldsFunc frame isLineEnd) ->
      forall value, ~ isField eventTypeEvent line value) ->
   Type_ event = EmptyString) /\
  ((forall line, In line (FieldsFunc frame isLineEnd) ->
      forall value, isField eventTypeID line value -> Contains value [NUL] = true) ->
   LastEventID event = EmptyString).
Proof.
  intros H. apply readEvent_Decoded in H as (event0 & E0 & ->). simpl.
  split; [|split]; intros Hn.
  - rewrite (processLines_keep_Data _ _ _ Hn E0). reflexivity.
  - now rewrite (processLines_keep_Type _ _ _ Hn E0).
  - now rewrite (processLines_keep_LastEventID _ _ _ Hn E0).
Qed.

Lemma readEvent_fields_default_witness :
  exists event,
    readEvent (lit ": keep-alive\nretry: 10\nevent: tick\nid: \0\nData: x\n")
      = Decoded event /\
    Data event = [] /\ LastEventID event = EmptyString.
Proof.
  exists {| LastEventID := EmptyString; Type_ := "tick"; Data := [] |}.
  split; [reflexivity|].
  pose proof (readEvent_fields_default
                (lit ": keep-alive\nretry: 10\nevent: tick\nid: \0\nData: x\n")
                {| LastEventID := EmptyString; Type_ := "tick"; Data := [] |}
                eq_refl) as (Hd & _ & Hi).
  split; [apply Hd | apply Hi].
  - intros line Hin value [_ Hf]. vm_compute in Hin.
    repeat (destruct Hin as [<-|Hin]; [vm_compute in Hf; discriminate|]).
    destruct Hin.
  - intros line Hin value [_ Hf]. vm_compute in Hin.
    repeat (destruct Hin as [<-|Hin];
            [vm_compute in Hf; try discriminate; injection Hf as <-; reflexivity|]).
    destruct Hin.
Defined.

(** A frame of line ends has no lines. *)
Lemma fields_loop_only_separators (f : byte -> bool) (s : bytes) :
  Forall (fun b => f b = true) s -> fields_loop f None s = [].
Proof.
  induction 1 as [|x s Hx _ IH]; simpl; [reflexivity|]. now rewrite Hx.
Qed.

(** X4.  A frame that is not empty and holds line ends only is no error:
    it decodes to the event with all fields empty.  (The segmenter yields
    such frames: the boundary bytes it leaves behind.) *)
Theorem readEvent_of_line_ends (frame : bytes) :
  frame <> [] -> Forall (fun b => isLineEnd b = true) frame ->
  readEvent frame = Decoded emptyEvent.
Proof.
  intros Hne Hall. destruct frame as [|c frame]; [congruence|].
  rewrite readEvent_cons. unfold FieldsFunc.
  now rewrite (fields_loop_only_separators isLineEnd _ Hall).
Qed.

Lemma readEvent_of_line_ends_witness :
  readEvent (lit "\n\r\n") = Decoded emptyEvent.
Proof.
  apply (readEvent_of_line_ends (lit "\n\r\n")).
  - vm_compute; discriminate.
  - vm_compute; repeat constructor.
Defined.

End DecoderResults.

(** * What a decoded event never holds *)

Section DecoderInvariant.

Lemma plainByte_not_line_end (s : bytes) :
  Forall plainByte s -> ~ In LF s /\ ~ In CR s /\ ~ In COLON s.
Proof.
  intros H. rewrite Forall_forall in H.
  repeat split; intros Hin; destruct (H _ Hin) as [He Hc];
    [discriminate He | discriminate He | now apply Hc].
Qed.

(** The field name and the value found on a line are made of bytes of the
    line, and hold no colon. *)
Lemma fieldAndValue_plain (line field value : bytes) :
  Forall (fun b => isLineEnd b = false) line ->
  fieldAndValue line = Some (field, value) ->
  Forall plainByte value.
Proof.
  intros Hline. unfold fieldAndValue. change (lit ":") with [COLON].
  destruct (Contains line [COLON]) eqn:Ec.
  - pose proof (genSplit_pieces COLON (length line) line (Nat.le_refl _)) as Hcol.
    pose proof (genSplit_sub (fun b => isLineEnd b = false) (length line) line [COLON] Hline)
      as Hsub.
    unfold Split.
    destruct (genSplit (length line) line [COLON]) as [|f0 [|v0 rest]]; simpl;
      try discriminate.
    intros [= <- <-].
    inversion Hcol as [|? ? _ Hcol']; inversion Hcol' as [|? ? Hv _]; subst.
    inversion Hsub as [|? ? _ Hsub']; inversion Hsub' as [|? ? Hs _]; subst.
    apply notIn_Forall in Hv.
    assert (Hplain : Forall plainByte v0).
    { rewrite Forall_forall in *. intros b Hb. split; auto. }
    unfold TrimPrefix. destruct (HasPrefix v0 (lit " "));
      [now apply Forall_skipn_bytes | exact Hplain].
  - intros [= <- <-]. constructor.
Qed.

Lemma plainEvent_empty : plainEvent emptyEvent.
Proof.
  unfold plainEvent; simpl. repeat split; auto.
Qed.

Lemma dispatch_plain (event : Event) (field value : bytes) :
  plainEvent event -> Forall plainByte value -> plainEvent (dispatch event field value).
Proof.
  intros (Hid & Hnul & Hty & Hdata) Hv. unfold dispatch.
  destruct (Equal field eventTypeEvent).
  { unfold plainEvent; simpl. rewrite list_byte_of_string_of_list_byte. auto. }
  destruct (Equal field eventTypeData).
  { unfold plainEvent; simpl. repeat split; auto. right; now exists value. }
  destruct (Equal field eventTypeID);
    [|destruct (Equal field eventTypeRetry); unfold plainEvent; auto].
  change (lit "\0") with [NUL].
  destruct (Contains value [NUL]) eqn:E; simpl; [unfold plainEvent; auto|].
  apply Contains_single in E.
  unfold plainEvent; simpl. rewrite list_byte_of_string_of_list_byte. auto.
Qed.

Lemma processLines_plain (lines : list bytes) (event event' : Event) :
  Forall (Forall (fun b => isLineEnd b = false)) lines ->
  plainEvent event ->
  processLines event lines = Some event' ->
  plainEvent event'.
Proof.
  intros Hlines; revert event; induction Hlines as [|line lines Hline _ IH];
    intros event Hp; simpl.
  - now intros [= <-].
  - unfold processLine.
    destruct (HasPrefix line (lit ":")); [now apply IH|].
    destruct (fieldAndValue line) as [[field value]|] eqn:E; [|discriminate].
    apply IH, dispatch_plain; [exact Hp|].
    exact (fieldAndValue_plain line field value Hline E).
Qed.

Lemma FieldsFunc_lines (frame : bytes) :
  Forall (Forall (fun b => isLineEnd b = false)) (FieldsFunc frame isLineEnd).
Proof.
  pose proof (fields_loop_sub (fun _ => True) isLineEnd frame None) as H.
  eapply Forall_impl; [|apply H].
  - now intros field [_ Hf].
  - apply Forall_forall; auto.
  - exact I.
Qed.

(** X5.  Whatever the frame, the strings of the decoded event hold no LF,
    no CR and no colon, and the last event id holds no NUL: lines are cut
    at LF and at CR, a value ends at the second colon of its line, and an
    [id] value with a NUL is not taken. *)
Theorem readEvent_strings_are_plain (frame : bytes) (event : Event) :
  readEvent frame = Decoded event ->
  (~ In LF (Data event) /\ ~ In CR (Data event) /\ ~ In COLON (Data event)) /\
  (~ In LF (list_byte_of_string (Type_ event)) /\
   ~ In CR (list_byte_of_string (Type_ event)) /\
   ~ In COLON (list_byte_of_string (Type_ event))) /\
  (~ In LF (list_byte_of_string (LastEventID event)) /\
   ~ In CR (list_byte_of_string (LastEventID event)) /\
   ~ In COLON (list_byte_of_string (LastEventID event))) /\
  ~ In NUL (list_byte_of_string (LastEventID event)).
Proof.
  intros H. apply readEvent_Decoded in H as (event0 & E0 & ->). simpl.
  destruct (processLines_plain _ _ _ (FieldsFunc_lines frame) plainEvent_empty E0)
    as (Hid & Hnul & Hty & Hdata).
  split; [|split; [now apply plainByte_not_line_end
                  |split; [now apply plainByte_not_line_end | exact Hnul]]].
  apply plainByte_not_line_end.
  destruct Hdata as [->|(value & -> & Hv)].
  - rewrite TrimSuffix_nil. constructor.
  - change (lit "\n") with [LF]. now rewrite TrimSuffix_app.
Qed.

Lemma readEvent_strings_are_plain_witness :
  exists event,
    readEvent (lit "id: 7\nid: 8\0\ndata: http://a\r\n") = Decoded event /\
    ~ In COLON (Data event) /\ ~ In NUL (list_byte_of_string (LastEventID event)).
Proof.
  exists {| LastEventID := "7"; Type_ := EmptyString; Data := lit "http" |}.
  split; [reflexivity|].
  pose proof (readEvent_strings_are_plain
                (lit "id: 7\nid: 8\0\ndata: http://a\r\n")
                {| LastEventID := "7"; Type_ := EmptyString; Data := lit "http" |}
                eq_refl) as ((_ & _ & Hc) & _ & _ & Hn).
  split; [exact Hc | exact Hn].
Defined.

End DecoderInvariant.

(** * More about the segmenter *)

Section SplitContract.
Import io bufio.

Lemma slice_to_length (data : bytes) (i : Z) :
  0 <= i <= len data -> len (slice_to data i) = i.
Proof.
  unfold len, slice_to. intros H. rewrite length_firstn. lia.
Qed.

(** A cut at a found boundary *)
Lemma cut_at_boundary (data : bytes) (b : byte) (sep : bytes) :
  0 <= Index data (b :: sep) ->
  exists rest,
    data = slice_to data (Index data (b :: sep)) ++ [b] ++ rest /\
    Index data (b :: sep) + 1 = len (slice_to data (Index data (b :: sep)) ++ [b]) /\
    Index data (b :: sep) + 1 <= len data.
Proof.
  intros H. pose proof (Index_found _ _ H) as E. pose proof (Index_bound _ _ H) as Hb.
  simpl length in Hb.
  exists (sep ++ slice_from data (Index data (b :: sep) + Z.of_nat (length (b :: sep)))).
  split; [exact E|].
  assert (Hl : len (slice_to data (Index data (b :: sep))) = Index data (b :: sep))
    by (apply slice_to_length; unfold len; lia).
  unfold len in *. rewrite length_app. simpl length. lia.
Qed.

(** The case of [eventScannerFunc] that cuts at a boundary found at an
    offset [H : 0 <= Index data _], the boundary beginning with [b]. *)
Ltac boundary_cut b H :=
  let rest := fresh "rest" in
  let E := fresh "E" in
  let Ha := fresh "Ha" in
  let Hle := fresh "Hle" in
  destruct (cut_at_boundary _ b _ H) as (rest & E & Ha & Hle);
  match type of H with
  | 0 <= Index ?d ?p =>
      exists (Index d p + 1), (Some (slice_to d (Index d p)));
      split; [reflexivity|];
      generalize dependent (Index d p); intros i H E Ha Hle
  end;
  split; [lia|]; split; [lia|];
  exists [b], rest; split; [exact E|]; split; [exact Ha|];
  right; split; [reflexivity|]; auto.

(** X6.  [eventScannerFunc] keeps to what [bufio.Scanner] asks of a split
    function.  It returns no error; when it returns no frame it advances
    by nothing; when it returns a frame, the frame is the beginning of the
    buffer and the advance covers the frame and the one byte skipped
    after it (a CR or an LF), or just the frame at the end of the stream;
    the advance is then at least one byte and never goes past the
    buffer. *)
Theorem eventScannerFunc_contract (data : bytes) (atEOF : bool) :
  exists advance token,
    eventScannerFunc data atEOF = (advance, token, None) /\
    0 <= advance <= len data /\
    match token with
    | None => advance = 0
    | Some frame =>
        1 <= advance /\
        exists gap rest,
          data = frame ++ gap ++ rest /\ advance = len (frame ++ gap) /\
          ((atEOF = true /\ gap = [] /\ rest = []) \/
           (atEOF = false /\ (gap = [CR] \/ gap = [LF])))
    end.
Proof.
  unfold eventScannerFunc.
  destruct atEOF; simpl andb; cbv iota.
  - destruct (Z.eqb_spec (len data) 0) as [E|E].
    + exists 0, None. repeat split; unfold len in *; lia.
    + exists (len data), (Some data). split; [reflexivity|].
      assert (0 < len data) by (unfold len in *; lia).
      repeat split; try lia.
      exists [], []. rewrite !app_nil_r. split; [reflexivity|]. split; [reflexivity|].
      left; auto.
  - change (lit "\r\n\r\n") with [CR; LF; CR; LF].
    change (lit "\n\n") with [LF; LF]. change (lit "\r\r") with [CR; CR].
    destruct (Z.leb_spec 0 (Index data [CR; LF; CR; LF])) as [H1|H1];
      [boundary_cut CR H1|].
    destruct (Z.leb_spec 0 (Index data [LF; LF])) as [H2|H2];
      [boundary_cut LF H2|].
    destruct (Z.leb_spec 0 (Index data [CR; CR])) as [H3|H3];
      [boundary_cut CR H3|].
    exists 0, None. repeat split; unfold len; lia.
Qed.

End SplitContract.

Section Reassembly.
Import io bufio.

Local Arguments fill : simpl never.



Lemma add_frame_FramesThen (f : bytes) (res : frames_result) (fs : list bytes) (e : error) :
  add_frame f res = FramesThen fs e ->
  exists fs', fs = f :: fs' /\ res = FramesThen fs' e.
Proof.
  destruct res; simpl; intros [= <- <-] || discriminate. eauto.
Qed.



End Reassembly.

Section ChunkedSource.
Import io bufio.



End ChunkedSource.

Section Completeness.
Import io bufio.

Local Arguments fill : simpl never.





End Completeness.

(** * Ends of the stream that the code treats apart *)

Section EndOfStream.
Import io bufio.





End EndOfStream.

Section TokenLimit.
Import io bufio.

Lemma setErr_buf_len (s : Scanner) (e : error) : buf_len (setErr s e) = buf_len s.
Proof. unfold setErr. destruct (err s) as [[]|]; reflexivity. Qed.

Lemma fill_buf_len (tries : nat) (s : Scanner) : buf_len (fill tries s) = buf_len s.
Proof.
  revert s; induction tries as [|tries IH]; intros s; cbn [fill];
    destruct (Read (r s) (Z.to_nat (buf_len s - end_ s))) as [[got e] rd'];
    (destruct (buf_len s - end_ s <? len got); [now rewrite setErr_buf_len|]);
    (destruct e; [now rewrite setErr_buf_len|]);
    (destruct (0 <? len got); [reflexivity|]).
  - reflexivity.
  - destruct tries; [now rewrite setErr_buf_len | now rewrite IH].
Qed.

Local Arguments fill : simpl never.

(** The reading half of a round when the buffer may not grow past the
    largest token. *)
Lemma refill_bounded (s : Scanner) :
  err s = None -> start s = 0 ->
  len (data s) <= buf_len s -> buf_len s <= MaxScanTokenSize ->
  maxTokenSize s = MaxScanTokenSize ->
  (len (data s) = MaxScanTokenSize /\
   refill s = inl (Scanned false (setErr s ErrTooLong))) \/
  (len (data s) < MaxScanTokenSize /\
   exists s1,
     refill s = inr (fill (S maxConsecutiveEmptyReads) s1) /\
     r s1 = r s /\ split s1 = split s /\ maxTokenSize s1 = maxTokenSize s /\
     start s1 = 0 /\ data s1 = data s /\ err s1 = None /\ done s1 = done s /\
     len (data s) < buf_len s1 /\ buf_len s1 <= MaxScanTokenSize).
Proof.
  intros He Hst Hle Hmaxb Hmax. unfold refill. rewrite He, Hst, Hmax. simpl andb. cbv iota.
  unfold MaxScanTokenSize in *.
  destruct (Z.eqb_spec (0 + len (data s)) (buf_len s)) as [Hfull|Hroom].
  - destruct (Z.leb_spec (64 * 1024) (buf_len s)) as [Hbig|Hsmall].
    + left. simpl orb. cbv iota. split; [lia | reflexivity].
    + right. split; [lia|].
      destruct (Z.ltb_spec (maxInt / 2) (buf_len s)) as [Hbig|_].
      { unfold maxInt in Hbig.
        assert (64 * 1024 < (2 ^ 63 - 1) / 2) by (vm_compute; reflexivity). lia. }
      simpl orb. cbv iota.
      eexists; split; [reflexivity|]. simpl. repeat split; auto;
        unfold startBufSize, len in *;
        destruct (Z.eqb_spec (buf_len s * 2) 0); lia.
  - right. split; [lia|].
    eexists; split; [reflexivity|]. simpl. repeat split; auto; lia.
Qed.

(** A stream without a boundary in its first [MaxScanTokenSize] bytes
    fills the buffer, and the scan gives up. *)
Lemma scan_loop_too_long (rounds : nat) (s : Scanner) (chunks : list bytes) :
  split s = eventScannerFunc -> err s = None -> r s = ofChunks chunks ->
  Forall (fun c => c <> []) chunks ->
  start s = 0 -> len (data s) <= buf_len s -> buf_len s <= MaxScanTokenSize ->
  maxTokenSize s = MaxScanTokenSize ->
  MaxScanTokenSize <= len (data s ++ concat chunks) ->
  hasBoundary (firstn (Z.to_nat MaxScanTokenSize) (data s ++ concat chunks)) = false ->
  (weight (ofChunks chunks) + 2 <= rounds)%nat ->
  exists s', scan_loop rounds s = Scanned false s' /\ err s' = Some ErrTooLong.
Proof.
  revert s chunks; induction rounds as [|rounds IH];
    intros s chunks Hsp He Hr Hne Hst Hle Hbl Hmax Hlong Hb Hrounds; [lia|].
  cbn [scan_loop].
  assert (Hbd : hasBoundary (data s) = false).
  { rewrite firstn_app in Hb. apply hasBoundary_prefix in Hb.
    rewrite firstn_all2 in Hb; [exact Hb|]. unfold len in *. lia. }
  destruct (offer_waits s Hsp He Hbd)
    as (s1 & -> & Hr1 & Hsp1 & Hmax1 & Hbl1 & Hst1 & Hd1 & He1 & Hdn1).
  destruct (refill_bounded s1 He1)
    as [[Hfull ->]|(Hlt & s2 & -> & Hr2 & Hsp2 & Hmax2 & Hst2 & Hd2 & He2 & Hdn2 & Hroom & Hbl2)];
    rewrite ?Hst1, ?Hd1, ?Hbl1, ?Hmax1; auto.
  - eexists; split; [reflexivity|]. now rewrite setErr_None by exact He1.
  - rewrite Hd1 in *. rewrite Hr1 in Hr2. rewrite Hsp1 in Hsp2.
    rewrite Hmax1 in Hmax2.
    destruct (fill_chunks maxConsecutiveEmptyReads s2 chunks He2)
      as (Hsp3 & Hmax3 & _ & Hst3 & Hle3 & chunks' & Hr3 & Hne3 & Hbytes & Hend);
      [congruence | exact Hne | exact Hst2 | rewrite Hd2; exact Hroom |].
    pose proof (fill_buf_len (S maxConsecutiveEmptyReads) s2) as Hbl3.
    set (s3 := fill (S maxConsecutiveEmptyReads) s2) in *.
    rewrite Hd2 in Hbytes.
    destruct Hend as [(-> & -> & _)|[He3 Hw]].
    + simpl concat in *. rewrite app_nil_r in *. lia.
    + apply (IH s3 chunks'); auto; try congruence; try lia;
        now rewrite Hbytes.
Qed.

(** X10.  A stream that arrives in non-empty chunks, holds at least
    [MaxScanTokenSize] (64 KiB) bytes and has no boundary among the first
    [MaxScanTokenSize] of them yields no frame at all: the scan ends with
    [bufio.ErrTooLong]. *)
Theorem segment_too_long (chunks : list bytes) :
  Forall (fun c => c <> []) chunks ->
  MaxScanTokenSize <= len (concat chunks) ->
  hasBoundary (firstn (Z.to_nat MaxScanTokenSize) (concat chunks)) = false ->
  segment (ofChunks chunks) = FramesThen [] ErrTooLong.
Proof.
  intros Hne Hlong Hb. unfold segment.
  replace (length (pending (ofChunks chunks)) + 2)%nat
    with (S (S (length (pending (ofChunks chunks))))) by lia.
  rewrite scanEvents_S.
  set (s0 := newEventScanner (ofChunks chunks)).
  assert (HS : bufio.Scan s0 = scan_loop (rounds_for s0) s0) by reflexivity.
  destruct (scan_loop_too_long (rounds_for s0) s0 chunks eq_refl eq_refl eq_refl Hne eq_refl)
    as (s' & Hs' & He');
    [unfold len; simpl; lia | unfold MaxScanTokenSize; simpl; lia | reflexivity
     | exact Hlong | exact Hb | apply Nat.le_refl |].
  rewrite <- HS in Hs'.
  now rewrite (scanEvent_error s0 s' ErrTooLong Hs' He').
Qed.

Lemma repeat_not_nil (b : byte) (n : nat) : (0 < n)%nat -> repeat b n <> [].
Proof. destruct n; [lia | discriminate]. Qed.

Lemma segment_too_long_witness :
  segment (ofChunks [repeat x61 (Z.to_nat 70000); lit "\n\n"]) = FramesThen [] ErrTooLong.
Proof.
  apply (segment_too_long [repeat x61 (Z.to_nat 70000); lit "\n\n"]).
  - constructor; [apply repeat_not_nil; lia|].
    constructor; [vm_compute; discriminate | constructor].
  - unfold len, MaxScanTokenSize. cbn [concat].
    rewrite !length_app, repeat_length. lia.
  - vm_compute. reflexivity.
Defined.

End TokenLimit.

(** * More about the session: the registry and the messages *)

Section Registry.

Lemma lookup_delete_same (m : list (chan * chan)) (k : chan) :
  lookup (delete m k) k = None.
Proof.
  induction m as [|[k' v] m IH]; simpl; [reflexivity|].
  destruct (Nat.eqb k' k) eqn:E; simpl; [exact IH | now rewrite E].
Qed.

Lemma lookup_delete_other (m : list (chan * chan)) (k k' : chan) :
  k' <> k -> lookup (delete m k) k' = lookup m k'.
Proof.
  intros Hne. induction m as [|[k0 v] m IH]; simpl; [reflexivity|].
  destruct (Nat.eqb_spec k0 k) as [->|E]; simpl.
  - destruct (Nat.eqb_spec k k'); [congruence | exact IH].
  - now rewrite IH.
Qed.








(** X11.  The teardown may run twice: the second run finds no stop channel
    and closes none (closing a channel twice would panic), and leaves the
    registry as the first run left it.  The first run forgets the session
    it is called for and keeps every other one. *)
Theorem closeRespAndCurrStreamCh_twice
        (c : Client) (resp resp' : option Response) (ch : chan) :
  (forall streamch,
      ~ In (CloseStop streamch)
           (fst (closeRespAndCurrStreamCh
                   (snd (closeRespAndCurrStreamCh c resp ch)) resp' ch))) /\
  snd (closeRespAndCurrStreamCh (snd (closeRespAndCurrStreamCh c resp ch)) resp' ch)
    = snd (closeRespAndCurrStreamCh c resp ch) /\
  StopStream (snd (closeRespAndCurrStreamCh c resp ch)) ch = None /\
  (forall ch', ch' <> ch ->
     StopStream (snd (closeRespAndCurrStreamCh c resp ch)) ch' = StopStream c ch').
Proof.
  unfold StopStream.
  assert (H1 : lookup (currentlyStreaming (snd (closeRespAndCurrStreamCh c resp ch))) ch
               = None).
  { unfold closeRespAndCurrStreamCh.
    destruct (lookup (currentlyStreaming c) ch) eqn:E; simpl;
      [apply lookup_delete_same | exact E]. }
  repeat split.
  - intros streamch. unfold closeRespAndCurrStreamCh at 1. rewrite H1.
    destruct resp'; simpl; intuition discriminate.
  - unfold closeRespAndCurrStreamCh at 1. rewrite H1. reflexivity.
  - exact H1.
  - intros ch' Hne. unfold closeRespAndCurrStreamCh.
    destruct (lookup (currentlyStreaming c) ch); simpl;
      [now apply lookup_delete_other | reflexivity].
Qed.




End Registry.

Section Messages.
Import io.

Lemma error_eqb_eq (a b : error) : error_eqb a b = true <-> a = b.
Proof.
  destruct a, b; simpl; split; try discriminate; try reflexivity.
  - intros H; apply Nat.eqb_eq in H; now subst.
  - intros [= ->]; apply Nat.eqb_refl.
Qed.

(** The first call of [scanEvent] gives the first frame of the stream, or
    the error that ends it at once. *)
Lemma segment_first (body : Reader) :
  match scanEvent (newEventScanner body) with
  | Frame f _ => exists fs e, segment body = FramesThen (f :: fs) e
  | ScanError e _ => segment body = FramesThen [] e
  | _ => False
  end.
Proof.
  destruct (segment_finishes body) as (fs & e & Hseg).
  revert Hseg. unfold segment.
  replace (length (pending body) + 2)%nat
    with (S (S (length (pending body)))) by lia.
  rewrite scanEvents_S.
  destruct (scanEvent_returns body) as [(f & s' & ->)|(e' & s' & ->)].
  - intros H. destruct (add_frame_FramesThen _ _ _ _ H) as (fs' & -> & _).
    rewrite H. eauto.
  - reflexivity.
Qed.

(** The goroutine after the status test. *)
Lemma streamBody_200 (c : Client) (req : Request) (stop : nat -> bool) (resp : Response) :
  HTTPClient c req = inl resp -> StatusCode resp = 200 ->
  streamBody c req stop =
  match scanEvent (newEventScanner (Body resp)) with
  | ScanError err _ =>
      if error_eqb err EOF
      then ([SendError ErrStreamIsClosed], Returned ExitStreamClosed)
      else ([SendError err], Returned ExitScanError)
  | ScanEventPanic => ([], Panicked)
  | ScanEventUnfinished => ([], Unfinished)
  | Frame eventBytes _ =>
      (match readEvent eventBytes with
       | Decoded event => [SendEvent event]
       | _ => []
       end,
       if stop 0%nat then Returned ExitStopped else BlockedOnStop)
  end.
Proof.
  intros Hdo Hst. unfold streamBody. rewrite Hdo, Hst. simpl negb. cbv iota.
  replace (length (pending (Body resp)) + 2)%nat
    with (S (S (length (pending (Body resp))))) by lia.
  apply streamLoop_S.
Qed.


(** X14.  What a session sends, by the segmenter and the decoder: with a
    200 response, the event it sends is the first frame of the body,
    decoded (and nothing, when that frame is empty); when the body gives
    no frame, it sends the error that ended the stream, [io.EOF] as
    [ErrStreamIsClosed]. *)
Theorem Stream_sends_first_frame
        (c : Client) (req : Request) (stop : nat -> bool) (resp : Response) :
  HTTPClient c req = inl resp -> StatusCode resp = 200 ->
  match segment (Body resp) with
  | FramesThen (f :: _) _ =>
      sentEvents (trace (Stream c req stop))
      = match readEvent f with Decoded event => [event] | _ => [] end /\
      sentErrors (trace (Stream c req stop)) = []
  | FramesThen [] e =>
      sentEvents (trace (Stream c req stop)) = [] /\
      sentErrors (trace (Stream c req stop))
      = [if error_eqb e EOF then ErrStreamIsClosed else e]
  | _ => False
  end.
Proof.
  intros Hdo Hst.
  destruct (Stream_outcome c req stop) as (_ & -> & -> & _).
  rewrite (streamBody_200 c req stop resp Hdo Hst).
  pose proof (segment_first (Body resp)) as Hf.
  destruct (scanEvent (newEventScanner (Body resp))) as [f s'|e s'| |];
    try contradiction.
  - destruct Hf as (fs & e & ->). destruct (readEvent f); simpl; auto.
  - rewrite Hf. destruct (error_eqb e EOF); simpl; auto.
Qed.

Lemma Stream_sends_first_frame_witness :
  sentEvents (trace (Stream (NewClient (answering 200
                                          (ofChunks [lit "event: a\nda"; lit "ta: 1\n\nid: 2"])))
                            0%nat noStop))
  = [{| LastEventID := EmptyString; Type_ := "a"; Data := lit "1" |}].
Proof.
  pose proof (Stream_sends_first_frame
                (NewClient (answering 200
                              (ofChunks [lit "event: a\nda"; lit "ta: 1\n\nid: 2"])))
                0%nat noStop
                {| StatusCode := 200;
                   Body := ofChunks [lit "event: a\nda"; lit "ta: 1\n\nid: 2"] |}
                eq_refl eq_refl) as H.
  vm_compute in H. vm_compute. exact (proj1 H).
Defined.

End Messages.

Section SurroundingLineEnds.

Lemma fields_loop_leading (f : byte -> bool) (pre s : bytes) :
  Forall (fun b => f b = true) pre ->
  fields_loop f None (pre ++ s) = fields_loop f None s.
Proof.
  induction 1 as [|x pre Hx _ IH]; simpl; [reflexivity|]. now rewrite Hx.
Qed.

Lemma fields_loop_trailing (f : byte -> bool) (s post : bytes) (open : option bytes) :
  Forall (fun b => f b = true) post ->
  fields_loop f open (s ++ post) = fields_loop f open s.
Proof.
  intros H. destruct H as [|t post Ht Hpost]; [now rewrite app_nil_r|].
  rewrite (fields_loop_sep f t s post open Ht).
  now rewrite (fields_loop_only_separators f post Hpost), app_nil_r.
Qed.

(** X15.  Line ends before and after a frame are immaterial to the
    decoder: a frame that is not empty decodes the same with any CRs and
    LFs put before it and after it.  (So it does no harm that the frames
    of the segmenter begin with the boundary bytes left by the frame
    before.) *)
Theorem readEvent_ignores_surrounding_line_ends (pre frame post : bytes) :
  frame <> [] ->
  Forall (fun b => isLineEnd b = true) pre ->
  Forall (fun b => isLineEnd b = true) post ->
  readEvent (pre ++ frame ++ post) = readEvent frame.
Proof.
  intros Hne Hpre Hpost. apply readEvent_same_lines.
  - split; [|congruence]. intros H.
    apply app_eq_nil in H as [_ H]. now apply app_eq_nil in H as [H _].
  - unfold FieldsFunc.
    now rewrite (fields_loop_leading _ _ _ Hpre), (fields_loop_trailing _ _ _ _ Hpost).
Qed.

Lemma readEvent_ignores_surrounding_line_ends_witness :
  readEvent (lit "\n\r\n" ++ lit "data: x" ++ lit "\r\n") = readEvent (lit "data: x").
Proof.
  apply (readEvent_ignores_surrounding_line_ends (lit "\n\r\n") (lit "data: x") (lit "\r\n")).
  - vm_compute; discriminate.
  - vm_compute; repeat constructor.
  - vm_compute; repeat constructor.
Defined.

End SurroundingLineEnds.
